(** * Log_Parser: a shallow embedding of [log_parser.py] and its properties

    The development follows the source file top to bottom:

    - [Re]        : the fragment of Python's [re] engine that [LOG_PATTERN]
                    uses (backtracking search, greedy and lazy repetition of a
                    character class, named groups, [$]);
    - [LogEntry], [LOG_PATTERN], [parse_line];
    - [State] (the attributes of a [LogParser] instance), [process_entry],
      [analyze_file], [get_top_ips];
    - [main] and the [__main__] block over an abstract file system;
    - [Grammar]   : the language of a pattern and the line format in words,
                    against which the matcher is proved sound and complete.

    Conventions.  A Python [str] is a Rocq [string], restricted to code
    points below 256; a Python [int] is a [Z]; a [dict] is an association
    list in insertion order (the order is observable through
    [sorted(self.ip_counts.items(), ...)]); an exception is the [Raise]
    branch of [exc]. *)

From Stdlib Require Import List String Ascii ZArith Bool Arith Lia.
From Stdlib Require Import Permutation Sorted.
Import ListNotations.

Local Open Scope string_scope.
Local Open Scope Z_scope.

Set Implicit Arguments.

(* ================================================================== *)
(** ** Exceptions *)

Inductive pyerror : Type :=
| IndexError
| OSError.

Inductive exc (A : Type) : Type :=
| Ok (a : A)
| Raise (e : pyerror).

Arguments Ok {A} a.
Arguments Raise {A} e.

Definition bind {A B : Type} (m : exc A) (f : A -> exc B) : exc B :=
  match m with
  | Ok a => f a
  | Raise e => Raise e
  end.

Notation "x <- m ;; f" := (bind m (fun x => f))
  (at level 61, m at next level, right associativity).

(* ================================================================== *)
(** ** The regular-expression engine *)

Module Re.

(** Character sets used by the pattern. *)
Inductive cset : Type :=
| Chr (c : ascii)   (* a literal character *)
| Digit             (* \d *)
| NonSpace          (* \S *)
| AnyChar.          (* .  (no DOTALL flag) *)

Definition newline : ascii := ascii_of_nat 10.

Definition is_digit (c : ascii) : bool :=
  let n := nat_of_ascii c in
  (Nat.leb 48 n && Nat.leb n 57)%bool.

(** [str.isspace] below code point 256: TAB..CR, FS..US, SPACE, NEL, NBSP. *)
Definition is_space (c : ascii) : bool :=
  let n := nat_of_ascii c in
  ((Nat.leb 9 n && Nat.leb n 13) || (Nat.leb 28 n && Nat.leb n 32)
   || Nat.eqb n 133 || Nat.eqb n 160)%bool.

Definition in_cset (cs : cset) (c : ascii) : bool :=
  match cs with
  | Chr a => Ascii.eqb a c
  | Digit => is_digit c
  | NonSpace => negb (is_space c)
  | AnyChar => negb (Ascii.eqb c newline)
  end.

(** Patterns.  Every quantifier of [LOG_PATTERN] applies to a single
    character set, so repetition is [Rep cs lo hi greedy]:
    [\d{1,3}] is [Rep Digit 1 (Some 3) true], [.*?] is
    [Rep AnyChar 0 None false], [\S+] is [Rep NonSpace 1 None true]. *)
Inductive regex : Type :=
| Eps
| Sym (cs : cset)
| Cat (r1 r2 : regex)
| Alt (r1 r2 : regex)
| Rep (cs : cset) (lo : nat) (hi : option nat) (greedy : bool)
| Group (name : string) (r : regex)
| EndOfString.

(** A literal string. *)
Fixpoint lit (s : string) : regex :=
  match s with
  | EmptyString => Eps
  | String c EmptyString => Sym (Chr c)
  | String c s' => Cat (Sym (Chr c)) (lit s')
  end.

(** The captures of the named groups closed so far, latest first. *)
Definition groups : Type := list (string * list ascii).

Definition orelse {R : Type} (a : option R) (b : unit -> option R) : option R :=
  match a with
  | Some x => Some x
  | None => b tt
  end.

Definition hi_pred (hi : option nat) : option nat :=
  match hi with
  | Some n => Some (Nat.pred n)
  | None => None
  end.

Definition hi_open (hi : option nat) : bool :=
  match hi with
  | Some O => false
  | _ => true
  end.

Section Matcher.
Variable R : Type.

(** Repetition of a character set: [lo] mandatory characters, then up to
    [hi] in all; a greedy quantifier tries one more character before the
    continuation, a lazy one tries the continuation first. *)
Fixpoint rep (cs : cset) (greedy : bool) (lo : nat) (hi : option nat)
         (s : list ascii) (k : list ascii -> option R) {struct s} : option R :=
  match lo with
  | S lo' =>
      match s with
      | c :: s' =>
          if in_cset cs c then rep cs greedy lo' (hi_pred hi) s' k else None
      | [] => None
      end
  | O =>
      let more (_ : unit) :=
        match s with
        | c :: s' =>
            if (hi_open hi && in_cset cs c)%bool
            then rep cs greedy O (hi_pred hi) s' k
            else None
        | [] => None
        end in
      if greedy then orelse (more tt) (fun _ => k s)
      else orelse (k s) more
  end.

(** The text consumed between the suffix [s] and its suffix [s']. *)
Definition consumed (s s' : list ascii) : list ascii :=
  firstn (List.length s - List.length s') s.

(** Backtracking match of [r] at the head of [s]; [k] is the rest of the
    pattern.  The first success in priority order is the result. *)
Fixpoint bt (r : regex) (s : list ascii) (g : groups)
         (k : list ascii -> groups -> option R) {struct r} : option R :=
  match r with
  | Eps => k s g
  | Sym cs =>
      match s with
      | c :: s' => if in_cset cs c then k s' g else None
      | [] => None
      end
  | Cat r1 r2 => bt r1 s g (fun s' g' => bt r2 s' g' k)
  | Alt r1 r2 => orelse (bt r1 s g k) (fun _ => bt r2 s g k)
  | Rep cs lo hi greedy => rep cs greedy lo hi s (fun s' => k s' g)
  | Group name r1 =>
      bt r1 s g (fun s' g' => k s' ((name, consumed s s') :: g'))
  | EndOfString =>
      match s with
      | [] => k s g
      | [c] => if Ascii.eqb c newline then k s g else None
      | _ => None
      end
  end.
End Matcher.

(** [Pattern.search]: the leftmost start position at which the pattern
    matches. *)
Fixpoint search (r : regex) (s : list ascii) : option groups :=
  match bt r s [] (fun _ g => Some g) with
  | Some g => Some g
  | None =>
      match s with
      | [] => None
      | _ :: s' => search r s'
      end
  end.

(** [Match.groupdict()[name]]; on a match of [LOG_PATTERN] each of its five
    names is bound, so the default is never reached. *)
Fixpoint group (name : string) (g : groups) : string :=
  match g with
  | [] => EmptyString
  | (n, v) :: g' =>
      if String.eqb n name then string_of_list_ascii v else group name g'
  end.

End Re.

(* ================================================================== *)
(** ** [LogEntry] and [LogParser.parse_line] *)

Record LogEntry : Type := mkLogEntry {
  ip : string;
  method : string;
  url : string;
  date : string;
  duration : Z
}.

Import Re.

Definition ip_re : regex :=
  Cat (Rep Digit 1 (Some 3%nat) true)
   (Cat (Sym (Chr "."))
    (Cat (Rep Digit 1 (Some 3%nat) true)
     (Cat (Sym (Chr "."))
      (Cat (Rep Digit 1 (Some 3%nat) true)
       (Cat (Sym (Chr "."))
        (Rep Digit 1 (Some 3%nat) true)))))).

Definition method_re : regex :=
  Alt (lit "GET")
   (Alt (lit "POST")
    (Alt (lit "PUT")
     (Alt (lit "DELETE")
      (Alt (lit "HEAD") (lit "OPTIONS"))))).

Definition lazy_any : regex := Rep AnyChar 0 None false.

Definition dquote : ascii := ascii_of_nat 34.

(** [LOG_PATTERN], line by line as in the source. *)
Definition LOG_PATTERN : regex :=
  Cat (Group "ip" ip_re)
   (Cat lazy_any
    (Cat (Sym (Chr "["))
     (Cat (Group "date" lazy_any)
      (Cat (Sym (Chr "]"))
       (Cat lazy_any
        (Cat (Sym (Chr dquote))
         (Cat (Group "method" method_re)
          (Cat (Sym (Chr " "))
           (Cat (Group "url" (Rep NonSpace 1 None true))
            (Cat lazy_any
             (Cat (Sym (Chr dquote))
              (Cat (Sym (Chr " "))
               (Cat (Group "duration" (Rep Digit 1 None true))
                EndOfString))))))))))))).

(** [int(s)] on a string of decimal digits, as an unbounded integer (the
    interpreter's configurable cap on the number of digits is left out). *)
Definition digit_value (c : ascii) : Z := Z.of_nat (nat_of_ascii c) - 48.

Fixpoint int_acc (acc : Z) (s : string) : Z :=
  match s with
  | EmptyString => acc
  | String c s' => int_acc (10 * acc + digit_value c) s'
  end.

Definition int (s : string) : Z := int_acc 0 s.

Definition parse_line (line : string) : option LogEntry :=
  match search LOG_PATTERN (list_ascii_of_string line) with
  | None => None
  | Some data =>
      Some {| ip := group "ip" data;
              method := group "method" data;
              url := group "url" data;
              date := group "date" data;
              duration := int (group "duration" data) |}
  end.

(* ================================================================== *)
(** ** Python containers *)

(** [sorted(l, key=key, reverse=True)] and [l.sort(key=key, reverse=True)]:
    descending by key, and stable (elements with equal keys keep their
    relative order, also with [reverse=True]).  A stable sort has one
    possible result, computed here by insertion. *)
Section SortDesc.
Variable A : Type.
Variable key : A -> Z.

Fixpoint insert_desc (x : A) (l : list A) : list A :=
  match l with
  | [] => [x]
  | y :: l' =>
      if key y <=? key x then x :: y :: l' else y :: insert_desc x l'
  end.

Fixpoint sort_desc (l : list A) : list A :=
  match l with
  | [] => []
  | x :: l' => insert_desc x (sort_desc l')
  end.

(** [l[-1]]. *)
Fixpoint item_last (l : list A) : exc A :=
  match l with
  | [] => Raise IndexError
  | [x] => Ok x
  | _ :: l' => item_last l'
  end.

(** [l[:n]] for a Python integer [n]: a negative [n] counts from the end. *)
Definition slice_to (n : Z) (l : list A) : list A :=
  if 0 <=? n then firstn (Z.to_nat n) l
  else firstn (List.length l - Z.to_nat (- n)) l.
End SortDesc.

(** A [defaultdict(int)] with string keys, as its items in insertion order. *)
Definition dict : Type := list (string * Z).

(** [d[k] += 1]: an absent key is first inserted (at the end) with value 0. *)
Fixpoint incr (k : string) (d : dict) : dict :=
  match d with
  | [] => [(k, 0 + 1)]
  | (k', v) :: d' =>
      if String.eqb k' k then (k', v + 1) :: d' else (k', v) :: incr k d'
  end.

(** [sum(d.values())]. *)
Definition sum_values (d : dict) : Z :=
  fold_right (fun kv acc => snd kv + acc) 0 d.

(* ================================================================== *)
(** ** [LogParser]: state and methods *)

Record State : Type := mkState {
  total_requests : Z;
  method_counts : dict;
  ip_counts : dict;
  slow_requests : list LogEntry
}.

(** [LogParser.__init__]. *)
Definition init : State :=
  {| total_requests := 0; method_counts := []; ip_counts := [];
     slow_requests := [] |}.

(** The condition of the [if] in [process_entry]; [or] evaluates its right
    operand only when the left one is false. *)
Definition admits (slow : list LogEntry) (entry : LogEntry) : exc bool :=
  if Z.of_nat (List.length slow) <? 3 then Ok true
  else l <- item_last slow ;; Ok (duration l <? duration entry).

Definition process_entry (st : State) (entry : LogEntry) : exc State :=
  let total := total_requests st + 1 in
  let methods := incr (method entry) (method_counts st) in
  let ips := incr (ip entry) (ip_counts st) in
  a <- admits (slow_requests st) entry ;;
  if a : bool then
    Ok {| total_requests := total; method_counts := methods; ip_counts := ips;
          slow_requests :=
            firstn 3 (sort_desc duration (slow_requests st ++ [entry])) |}
  else
    Ok {| total_requests := total; method_counts := methods; ip_counts := ips;
          slow_requests := slow_requests st |}.

(** The loop of [analyze_file] over the lines of an open file. *)
Fixpoint analyze_lines (lines : list string) (st : State) : exc State :=
  match lines with
  | [] => Ok st
  | line :: rest =>
      match parse_line line with
      | Some entry => st' <- process_entry st entry ;; analyze_lines rest st'
      | None => analyze_lines rest st
      end
  end.

(** [process_entry] called on a sequence of records, first to last. *)
Fixpoint process_all (entries : list LogEntry) (st : State) : exc State :=
  match entries with
  | [] => Ok st
  | entry :: rest => st' <- process_entry st entry ;; process_all rest st'
  end.

Definition get_top_ips (st : State) (n : Z) : list (string * Z) :=
  slice_to n (sort_desc snd (ip_counts st)).

(* ================================================================== *)
(** ** The file system, [save_results] and [main] *)

Record FileSystem : Type := mkFS {
  isfile : string -> bool;                 (* os.path.isfile *)
  isdir : string -> bool;                  (* os.path.isdir *)
  listdir : string -> exc (list string);   (* os.listdir *)
  read_lines : string -> exc (list string);(* open(p, 'r') and its lines *)
  writable : string -> bool                (* open(p, 'w') succeeds *)
}.

Definition analyze_file (fs : FileSystem) (file_path : string) (st : State)
  : exc State :=
  lines <- read_lines fs file_path ;; analyze_lines lines st.

(** The dictionary built by [save_results]. *)
Record Result : Type := mkResult {
  res_total_requests : Z;
  res_method_counts : dict;
  res_top_ips : list (string * Z);
  res_slow_requests : list LogEntry
}.

Inductive event : Type :=
| Print (text : string)
| PrintResult (r : Result)
| JsonDump (path : string) (r : Result).

Definition save_results (fs : FileSystem) (st : State) (output_path : string)
  : list event * exc unit :=
  let result :=
    {| res_total_requests := total_requests st;
       res_method_counts := method_counts st;
       res_top_ips := get_top_ips st 3;
       res_slow_requests := slow_requests st |} in
  if writable fs output_path
  then ([PrintResult result; JsonDump output_path result], Ok tt)
  else ([PrintResult result], Raise OSError).

(** [s.endswith(suffix)]. *)
Definition endswith (s suffix : string) : bool :=
  let n := String.length s in
  let m := String.length suffix in
  (Nat.leb m n && String.eqb (substring (n - m) m s) suffix)%bool.

(** [os.path.join(d, name)] for a relative [name] (POSIX). *)
Definition path_join (d name : string) : string :=
  if (String.eqb d "" || endswith d "/")%bool then d ++ name
  else d ++ "/" ++ name.

Fixpoint analyze_dir (fs : FileSystem) (d : string) (names : list string)
         (st : State) : exc State :=
  match names with
  | [] => Ok st
  | filename :: rest =>
      if endswith filename ".log"
      then st' <- analyze_file fs (path_join d filename) st ;;
           analyze_dir fs d rest st'
      else analyze_dir fs d rest st
  end.

(** [args.output or default]. *)
Definition output_or (output : option string) (default : string) : string :=
  match output with
  | Some o => if String.eqb o "" then default else o
  | None => default
  end.

(** The message of the last branch of [main]. *)
Definition bad_path_message : string := "Ошибка: указан неверный путь".

(** [main], from the parsed arguments on; the result is what was printed
    and written, and the value [main] returns ([None] for falling off the
    end). *)
Definition main (fs : FileSystem) (input : string) (output : option string)
  : list event * exc (option Z) :=
  if isfile fs input then
    match analyze_file fs input init with
    | Raise e => ([], Raise e)
    | Ok st =>
        let (ev, r) := save_results fs st (output_or output (input ++ ".json")) in
        (ev, _ <- r ;; Ok None)
    end
  else if isdir fs input then
    match (names <- listdir fs input ;; analyze_dir fs input names init) with
    | Raise e => ([], Raise e)
    | Ok st =>
        let (ev, r) := save_results fs st (output_or output "logs_analysis.json") in
        (ev, _ <- r ;; Ok None)
    end
  else ([Print bad_path_message], Ok (Some 1)).

(** The [__main__] block is the statement [main()]: the value [main]
    returns is dropped, and the interpreter exits with status 0 unless an
    exception escaped. *)
Definition exit_status (r : exc (option Z)) : Z :=
  match r with
  | Ok _ => 0
  | Raise _ => 1
  end.

Definition run (fs : FileSystem) (input : string) (output : option string)
  : list event * Z :=
  let (ev, r) := main fs input output in (ev, exit_status r).

(* ================================================================== *)
(** ** Sample inputs *)

Definition q : string := String dquote EmptyString.

(** An access-log line with a status field between the quoted request and
    the final number. *)
Definition line_with_status : string :=
  "1.2.3.4 - - [10/Oct/2020:13:55:36] " ++ q ++ "GET /index.html HTTP/1.1"
  ++ q ++ " 200 150".

(** The same line with the duration right after the quoted request. *)
Definition line_without_status : string :=
  "1.2.3.4 - - [10/Oct/2020:13:55:36] " ++ q ++ "GET /index.html HTTP/1.1"
  ++ q ++ " 150".

(** A line without the bracketed date. *)
Definition line_without_date : string :=
  "1.2.3.4 - - " ++ q ++ "GET /index.html HTTP/1.1" ++ q ++ " 150".

Definition sample_entry : LogEntry :=
  {| ip := "1.2.3.4"; method := "GET"; url := "/index.html";
     date := "10/Oct/2020:13:55:36"; duration := 150 |}.

(** A state whose per-IP counts are A:5, B:5, C:2, D:1. *)
Definition abcd_counts : dict := [("A", 5); ("B", 5); ("C", 2); ("D", 1)].

Definition abcd_state : State :=
  {| total_requests := 13; method_counts := [("GET", 13)];
     ip_counts := abcd_counts; slow_requests := [] |}.

(** A file system on which no path exists. *)
Definition empty_fs : FileSystem :=
  {| isfile := fun _ => false;
     isdir := fun _ => false;
     listdir := fun _ => Raise OSError;
     read_lines := fun _ => Raise OSError;
     writable := fun _ => true |}.

(** A directory [logs] with two log files and one other file. *)
Definition two_logs_fs : FileSystem :=
  {| isfile := fun p => (String.eqb p "logs/a.log" || String.eqb p "logs/b.log"
                         || String.eqb p "logs/notes.txt")%bool;
     isdir := fun p => String.eqb p "logs";
     listdir := fun p =>
       if String.eqb p "logs" then Ok ["a.log"; "notes.txt"; "b.log"]
       else Raise OSError;
     read_lines := fun p =>
       if String.eqb p "logs/a.log"
       then Ok [line_without_status ++ String newline ""; "# rotated"]
       else if String.eqb p "logs/b.log"
       then Ok [line_with_status; line_without_status]
       else if String.eqb p "logs/notes.txt" then Ok ["todo"]
       else Raise OSError;
     writable := fun _ => true |}.

(** The same directory when [b.log] cannot be opened. *)
Definition broken_logs_fs : FileSystem :=
  {| isfile := isfile two_logs_fs;
     isdir := isdir two_logs_fs;
     listdir := listdir two_logs_fs;
     read_lines := fun p =>
       if String.eqb p "logs/b.log" then Raise OSError
       else read_lines two_logs_fs p;
     writable := fun _ => true |}.

Definition lines_of_two_logs (name : string) : list string :=
  if String.eqb name "a.log"
  then [line_without_status ++ String newline ""; "# rotated"]
  else [line_with_status; line_without_status].

(* ================================================================== *)
(** ** Specification-side definitions *)

Local Open Scope list_scope.

Module Grammar.

Definition chars (s : string) : list ascii := list_ascii_of_string s.

Definition all_in (cs : cset) (w : list ascii) : Prop :=
  forallb (in_cset cs) w = true.

(** The language of a pattern: [denote r w rest] says that [r] can match
    the text [w] when [rest] is what follows it ([$] looks at [rest]). *)
Fixpoint denote (r : regex) (w rest : list ascii) : Prop :=
  match r with
  | Eps => w = []
  | Sym cs => exists c, w = [c] /\ in_cset cs c = true
  | Cat r1 r2 =>
      exists w1 w2, w = w1 ++ w2 /\ denote r1 w1 (w2 ++ rest) /\ denote r2 w2 rest
  | Alt r1 r2 => denote r1 w rest \/ denote r2 w rest
  | Rep cs lo hi _ =>
      all_in cs w /\ (lo <= List.length w)%nat /\
      match hi with
      | Some h => (List.length w <= h)%nat
      | None => True
      end
  | Group _ r1 => denote r1 w rest
  | EndOfString => w = [] /\ (rest = [] \/ rest = [newline])
  end.

(** Quantifier bounds are consistent ([re.compile] refuses the others). *)
Fixpoint wf (r : regex) : bool :=
  match r with
  | Cat r1 r2 | Alt r1 r2 => (wf r1 && wf r2)%bool
  | Rep _ lo (Some h) _ => Nat.leb lo h
  | Group _ r1 => wf r1
  | _ => true
  end.

(** The line format in the words of the specification: free-form prefix,
    IPv4-shaped token, free-form middle, bracketed date, free-form middle,
    quoted request (method, space, URL without whitespace, trailing text),
    a space, the integer duration, end of line.  Free-form text stays
    within the line. *)
Definition octet (w : list ascii) : Prop :=
  all_in Digit w /\ (1 <= List.length w <= 3)%nat.

Definition ipv4_shaped (w : list ascii) : Prop :=
  exists o1 o2 o3 o4,
    w = o1 ++ chars "." ++ o2 ++ chars "." ++ o3 ++ chars "." ++ o4 /\
    octet o1 /\ octet o2 /\ octet o3 /\ octet o4.

Definition methods : list string :=
  ["GET"; "POST"; "PUT"; "DELETE"; "HEAD"; "OPTIONS"].

Definition matches_grammar (line : list ascii) : Prop :=
  exists pre i mid1 d mid2 m u trail n eol,
    line = pre ++ i ++ mid1 ++ chars "[" ++ d ++ chars "]" ++ mid2 ++
           [dquote] ++ chars m ++ chars " " ++ u ++ trail ++
           [dquote] ++ chars " " ++ n ++ eol /\
    ipv4_shaped i /\
    all_in AnyChar mid1 /\ all_in AnyChar d /\ all_in AnyChar mid2 /\
    In m methods /\
    (u <> [] /\ all_in NonSpace u) /\
    all_in AnyChar trail /\
    (n <> [] /\ all_in Digit n) /\
    (eol = [] \/ eol = [newline]).

End Grammar.

(** The smallest duration in a list of records. *)
Fixpoint min_duration (l : list LogEntry) : option Z :=
  match l with
  | [] => None
  | x :: l' =>
      match min_duration l' with
      | None => Some (duration x)
      | Some m => Some (Z.min (duration x) m)
      end
  end.

(** Position, in the processed sequence, of the first record from address
    [a]. *)
Fixpoint first_seen (a : string) (entries : list LogEntry) : option nat :=
  match entries with
  | [] => None
  | e :: rest =>
      if String.eqb (ip e) a then Some O
      else option_map S (first_seen a rest)
  end.

(** The first record from [a] comes before the first record from [b]. *)
Definition seen_before (entries : list LogEntry) (a b : string) : Prop :=
  exists i j,
    first_seen a entries = Some i /\ first_seen b entries = Some j /\
    (i < j)%nat.

(** Descending by key. *)
Definition desc {A : Type} (key : A -> Z) (x y : A) : Prop := key y <= key x.

(** Descending by key, ties in the order given by [ord]. *)
Definition desc_then {A : Type} (key : A -> Z) (ord : A -> A -> Prop)
  (x y : A) : Prop :=
  key y < key x \/ (key x = key y /\ ord x y).

(** Where a stable descending sort puts an element that came last: after
    every element whose key is at least its own. *)
Fixpoint insert_end {A : Type} (key : A -> Z) (e : A) (l : list A) : list A :=
  match l with
  | [] => [e]
  | y :: l' =>
      if key y <? key e then e :: y :: l' else y :: insert_end key e l'
  end.

(** The counts that [d[f(e)] += 1] leaves, over a sequence of records. *)
Definition tally (f : LogEntry -> string) (entries : list LogEntry) : dict :=
  fold_left (fun d e => incr (f e) d) entries [].

(** A record with its duration replaced. *)
Definition set_duration (e : LogEntry) (d : Z) : LogEntry :=
  {| ip := ip e; method := method e; url := url e; date := date e;
     duration := d |}.

(** The branch of [rep] that takes one more character. *)
Definition rep_more {R : Type} (cs : cset) (greedy : bool) (hi : option nat)
           (s : list ascii) (k : list ascii -> option R) : option R :=
  match s with
  | c :: s' =>
      if (hi_open hi && in_cset cs c)%bool
      then rep cs greedy O (hi_pred hi) s' k
      else None
  | [] => None
  end.

(** The records of a sequence paired with their positions, from [a] on. *)
Fixpoint numbered (a : nat) (entries : list LogEntry) : list (nat * LogEntry) :=
  match entries with
  | [] => []
  | e :: rest => (a, e) :: numbered (S a) rest
  end.

(** [d.get(k)]: the value of the item with key [k]. *)
Fixpoint dict_get (k : string) (d : dict) : option Z :=
  match d with
  | [] => None
  | (k', v) :: d' => if String.eqb k' k then Some v else dict_get k d'
  end.

(** How many records of a sequence have [f e = a]. *)
Definition count_by (f : LogEntry -> string) (a : string)
  (entries : list LogEntry) : Z :=
  Z.of_nat (List.length (filter (fun e => String.eqb (f e) a) entries)).

(** What a dictionary holds for a key that was counted [n] times. *)
Definition counted (n : Z) : option Z := if n =? 0 then None else Some n.

(** The records of the lines that parse, in order. *)
Definition parsed (lines : list string) : list LogEntry :=
  flat_map (fun line => match parse_line line with
                        | Some entry => [entry]
                        | None => []
                        end) lines.

(** The names that [main] takes for log files. *)
Definition is_log (filename : string) : bool := endswith filename ".log".

(** The language of a pattern with the captures it leaves: [g] before the
    match, [g'] after it. *)
Fixpoint denote_groups (r : regex) (w rest : list ascii) (g g' : groups)
  : Prop :=
  match r with
  | Eps => w = [] /\ g' = g
  | Sym cs => (exists c, w = [c] /\ in_cset cs c = true) /\ g' = g
  | Cat r1 r2 =>
      exists w1 w2 g1,
        w = w1 ++ w2 /\ denote_groups r1 w1 (w2 ++ rest) g g1 /\
        denote_groups r2 w2 rest g1 g'
  | Alt r1 r2 => denote_groups r1 w rest g g' \/ denote_groups r2 w rest g g'
  | Rep cs lo hi _ =>
      (Grammar.all_in cs w /\ (lo <= List.length w)%nat /\
       match hi with
       | Some h => (List.length w <= h)%nat
       | None => True
       end) /\ g' = g
  | Group name r1 =>
      exists g1, denote_groups r1 w rest g g1 /\ g' = (name, w) :: g1
  | EndOfString => (w = [] /\ (rest = [] \/ rest = [newline])) /\ g' = g
  end.

(** No character set of the pattern holds the newline. *)
Fixpoint newline_free (r : regex) : bool :=
  match r with
  | Sym cs | Rep cs _ _ _ => negb (in_cset cs newline)
  | Cat r1 r2 | Alt r1 r2 => (newline_free r1 && newline_free r2)%bool
  | Group _ r1 => newline_free r1
  | _ => true
  end.

(** The lines that the loop of [main] over a directory listing reads: those
    of the files whose name ends in [.log], file after file. *)
Fixpoint dir_lines (fs : FileSystem) (d : string) (names : list string)
  : exc (list string) :=
  match names with
  | [] => Ok []
  | filename :: rest =>
      if is_log filename
      then ls <- read_lines fs (path_join d filename) ;;
           more <- dir_lines fs d rest ;;
           Ok (ls ++ more)
      else dir_lines fs d rest
  end.

(** The lines that [main] reads for an input path: those of the file, or
    those of the [.log] files of the directory; none for any other path. *)
Definition input_lines (fs : FileSystem) (input : string) : exc (list string) :=
  if isfile fs input then read_lines fs input
  else if isdir fs input
       then names <- listdir fs input ;; dir_lines fs input names
       else Ok [].

(* ================================================================== *)
(** ** The matcher is sound for the language of the pattern *)

Import Grammar.

Section ReSound.
Variable R : Type.

Lemma orelse_some (a : option R) (b : unit -> option R) x :
  orelse a b = Some x -> a = Some x \/ b tt = Some x.
Proof. destruct a; cbn; intros H; [left | right]; assumption. Qed.

Lemma rep_zero (cs : cset) (greedy : bool) hi s (k : list ascii -> option R) :
  rep cs greedy 0 hi s k =
  if greedy then orelse (rep_more cs greedy hi s k) (fun _ => k s)
  else orelse (k s) (fun _ => rep_more cs greedy hi s k).
Proof. destruct s; reflexivity. Qed.

Lemma rep_more_some (cs : cset) (greedy : bool) hi s
      (k : list ascii -> option R) x :
  rep_more cs greedy hi s k = Some x ->
  exists c s',
    s = c :: s' /\ hi_open hi = true /\ in_cset cs c = true /\
    rep cs greedy 0 (hi_pred hi) s' k = Some x.
Proof.
  destruct s as [| c s']; cbn; [discriminate |].
  destruct (hi_open hi) eqn:Ho; cbn; [| discriminate].
  destruct (in_cset cs c) eqn:Hc; [| discriminate].
  intros H. exists c, s'. repeat split; auto.
Qed.

Lemma rep_sound (cs : cset) (greedy : bool) (s : list ascii) :
  forall lo hi (k : list ascii -> option R) x,
    rep cs greedy lo hi s k = Some x ->
    exists w s',
      s = w ++ s' /\ all_in cs w /\ (lo <= List.length w)%nat /\
      match hi with
      | Some h => (List.length w <= Nat.max lo h)%nat
      | None => True
      end /\
      k s' = Some x.
Proof.
  induction s as [| c s IH]; intros lo hi k x H.
  - destruct lo as [| lo]; [| discriminate].
    rewrite rep_zero in H.
    assert (Hk : k [] = Some x).
    { destruct greedy; apply orelse_some in H;
        destruct H as [H | H]; cbn in H; congruence. }
    exists [], []. repeat split; auto. destruct hi; auto with arith.
  - destruct lo as [| lo].
    + rewrite rep_zero in H.
      assert (Hcases :
                k (c :: s) = Some x \/
                rep_more cs greedy hi (c :: s) k = Some x)
        by (destruct greedy; apply orelse_some in H; tauto).
      destruct Hcases as [Hk | Hm].
      * exists [], (c :: s). repeat split; auto. destruct hi; auto with arith.
      * apply rep_more_some in Hm.
        destruct Hm as (c' & s0 & E & Ho & Hc & Hr).
        injection E as <- <-.
        apply IH in Hr. destruct Hr as (w & s' & -> & Hw & _ & Hhi & Hk).
        exists (c :: w), s'. repeat split; auto.
        -- unfold all_in in *. cbn. rewrite Hc. exact Hw.
        -- cbn; lia.
        -- destruct hi as [[| h] |]; try discriminate; auto;
             cbn [hi_pred Nat.pred] in Hhi; cbn [List.length]; lia.
    + cbn in H. destruct (in_cset cs c) eqn:Hc; [| discriminate].
      apply IH in H. destruct H as (w & s' & -> & Hw & Hlo & Hhi & Hk).
      exists (c :: w), s'. repeat split; auto.
      * unfold all_in in *. cbn. rewrite Hc. exact Hw.
      * cbn; lia.
      * destruct hi as [[| h] |]; cbn [hi_pred Nat.pred] in Hhi;
          cbn [List.length]; auto; lia.
Qed.

Lemma bt_sound (r : regex) :
  wf r = true ->
  forall s g (k : list ascii -> groups -> option R) x,
    bt r s g k = Some x ->
    exists w s' g', s = w ++ s' /\ denote r w s' /\ k s' g' = Some x.
Proof.
  induction r as [| cs | r1 IH1 r2 IH2 | r1 IH1 r2 IH2
                  | cs lo hi greedy | name r1 IH1 |];
    intros Hwf s g k x H; cbn [bt wf denote] in *.
  - exists [], s, g. auto.
  - destruct s as [| c s]; [discriminate |].
    destruct (in_cset cs c) eqn:Hc; [| discriminate].
    exists [c], s, g. repeat split; eauto.
  - apply andb_prop in Hwf. destruct Hwf as [Hw1 Hw2].
    apply (IH1 Hw1) in H. destruct H as (w1 & s1 & g1 & -> & D1 & H).
    apply (IH2 Hw2) in H. destruct H as (w2 & s2 & g2 & -> & D2 & H).
    exists (w1 ++ w2), s2, g2. rewrite app_assoc. repeat split; auto.
    exists w1, w2. auto.
  - apply andb_prop in Hwf. destruct Hwf as [Hw1 Hw2].
    apply orelse_some in H. destruct H as [H | H].
    + apply (IH1 Hw1) in H. destruct H as (w & s' & g' & -> & D & H).
      exists w, s', g'. auto.
    + apply (IH2 Hw2) in H. destruct H as (w & s' & g' & -> & D & H).
      exists w, s', g'. auto.
  - apply rep_sound in H. destruct H as (w & s' & -> & Hw & Hlo & Hhi & Hk).
    exists w, s', g. repeat split; auto.
    destruct hi as [h |]; auto.
    apply Nat.leb_le in Hwf. lia.
  - apply (IH1 Hwf) in H. destruct H as (w & s' & g' & -> & D & H).
    eauto 10.
  - destruct s as [| c [| c' s]]; try discriminate.
    + exists [], [], g. auto.
    + destruct (Ascii.eqb c newline) eqn:E; [| discriminate].
      apply Ascii.eqb_eq in E. subst c.
      exists [], [newline], g. auto.
Qed.
End ReSound.

Lemma search_sound (r : regex) (s : list ascii) (g : groups) :
wf r = true ->
search r s = Some g ->
exists pre w post, s = pre ++ w ++ post /\ denote r w post.
Proof.
intros Hwf. induction s as [| c s IH]; cbn; intros H.
- destruct (bt r [] [] (fun _ g0 => Some g0)) eqn:E; [| discriminate].
  apply (bt_sound _ Hwf) in E. destruct E as (w & s' & _ & Hs & D & _).
  exists [], w, s'. auto.
- destruct (bt r (c :: s) [] (fun _ g0 => Some g0)) eqn:E.
  + apply (bt_sound _ Hwf) in E. destruct E as (w & s' & _ & Hs & D & _).
    exists [], w, s'. auto.
  + apply IH in H. destruct H as (pre & w & post & -> & D).
    exists (c :: pre), w, post. auto.
Qed.

(** *** The language of [LOG_PATTERN] is the grammar of the specification *)

Lemma denote_lit (s : string) (w rest : list ascii) :
denote (lit s) w rest -> w = chars s.
Proof.
revert w rest. induction s as [| c s IH]; intros w rest H.
- exact H.
- destruct s as [| c' s'].
  + cbn in H. destruct H as (a & -> & E).
    apply Ascii.eqb_eq in E. subst a. reflexivity.
  + change (lit (String c (String c' s')))
      with (Cat (Sym (Chr c)) (lit (String c' s'))) in H.
    cbn [denote] in H.
    destruct H as (w1 & w2 & -> & (a & -> & E) & H2).
    apply Ascii.eqb_eq in E. subst a.
    apply IH in H2. subst w2. reflexivity.
Qed.

Lemma denote_chr (c : ascii) (w : list ascii) :
(exists a, w = [a] /\ in_cset (Chr c) a = true) -> w = [c].
Proof.
cbn. intros (a & -> & E). apply Ascii.eqb_eq in E. now subst a.
Qed.

Lemma denote_method (w rest : list ascii) :
denote method_re w rest -> exists m, In m methods /\ w = chars m.
Proof.
unfold method_re. cbn [denote].
intros H.
repeat (destruct H as [H | H]);
  apply denote_lit in H; subst w;
  eexists; (split; [| reflexivity]); cbn; tauto.
Qed.

Lemma denote_octet (w rest : list ascii) :
denote (Rep Digit 1 (Some 3%nat) true) w rest -> octet w.
Proof. cbn. unfold octet. tauto. Qed.

Lemma denote_ip (w rest : list ascii) :
denote ip_re w rest -> ipv4_shaped w.
Proof.
unfold ip_re. cbn [denote].
intros (o1 & r1 & -> & H1 & d1 & r2 & -> & (a & -> & E1) & o2 & r3 & -> & H2 &
        d2 & r4 & -> & (b & -> & E2) & o3 & r5 & -> & H3 &
        d3 & o4 & -> & (c & -> & E3) & H4).
cbn [in_cset] in E1, E2, E3.
apply Ascii.eqb_eq in E1, E2, E3. subst a b c.
exists o1, o2, o3, o4. repeat split; try apply H1; try apply H2;
  try apply H3; try apply H4.
Qed.

Lemma denote_lazy_any (w rest : list ascii) :
denote lazy_any w rest -> all_in AnyChar w.
Proof. cbn. tauto. Qed.

Lemma nonempty_length (A : Type) (w : list A) :
(1 <= List.length w)%nat -> w <> [].
Proof. destruct w; cbn; [lia | discriminate]. Qed.

Lemma log_pattern_grammar (pre w post : list ascii) :
denote LOG_PATTERN w post -> matches_grammar (pre ++ w ++ post).
Proof.
unfold LOG_PATTERN. cbn [denote].
intros (i & r1 & -> & Hi & mid1 & r2 & -> & Hm1 & c1 & r3 & -> & Hc1 &
        d & r4 & -> & Hd & c2 & r5 & -> & Hc2 & mid2 & r6 & -> & Hm2 &
        c3 & r7 & -> & Hc3 & m & r8 & -> & Hm & c4 & r9 & -> & Hc4 &
        u & r10 & -> & Hu & tr & r11 & -> & Htr & c5 & r12 & -> & Hc5 &
        c6 & r13 & -> & Hc6 & n & e & -> & Hn & -> & Hpost).
apply denote_chr in Hc1, Hc2, Hc3, Hc4, Hc5, Hc6. subst.
apply denote_ip in Hi. apply denote_lazy_any in Hm1, Hd, Hm2, Htr.
apply denote_method in Hm. destruct Hm as (ms & Hin & ->).
destruct Hu as (Hu1 & Hu2 & _). destruct Hn as (Hn1 & Hn2 & _).
exists pre, i, mid1, d, mid2, ms, u, tr, n, post.
split.
{ cbn [chars list_ascii_of_string]. repeat rewrite <- app_assoc. reflexivity. }
apply nonempty_length in Hu2, Hn2. tauto.
Qed.

Lemma wf_LOG_PATTERN : wf LOG_PATTERN = true.
Proof. reflexivity. Qed.

Lemma parse_line_none_iff (line : string) :
parse_line line = None <->
search LOG_PATTERN (list_ascii_of_string line) = None.
Proof.
unfold parse_line.
destruct (search LOG_PATTERN (list_ascii_of_string line));
  split; intros H; try discriminate; reflexivity.
Qed.

Lemma parse_line_sound (line : string) (entry : LogEntry) :
parse_line line = Some entry -> matches_grammar (chars line).
Proof.
unfold parse_line, chars.
destruct (search LOG_PATTERN (list_ascii_of_string line)) as [g |] eqn:E;
  [| discriminate].
intros _. apply (search_sound _ _ wf_LOG_PATTERN) in E.
destruct E as (pre & w & post & -> & D).
now apply log_pattern_grammar.
Qed.

(* ================================================================== *)
(** ** Lists: sortedness, prefixes *)

Section ListFacts.
Variable A : Type.

Lemma StronglySorted_impl (R R' : A -> A -> Prop) (l : list A) :
(forall x y, R x y -> R' x y) ->
StronglySorted R l -> StronglySorted R' l.
Proof.
intros HR. induction 1 as [| x l _ IH HF]; constructor; auto.
eapply Forall_impl; [| exact HF]. auto.
Qed.

Lemma StronglySorted_firstn (R : A -> A -> Prop) (n : nat) (l : list A) :
StronglySorted R l -> StronglySorted R (firstn n l).
Proof.
intros H. revert n. induction H as [| x l _ IH HF]; intros [| n]; cbn;
  constructor; auto.
rewrite Forall_forall in *. intros y Hy. apply HF.
rewrite <- (firstn_skipn n l). apply in_or_app. now left.
Qed.

Lemma StronglySorted_snoc (R : A -> A -> Prop) (l : list A) (x : A) :
StronglySorted R l -> Forall (fun y => R y x) l ->
StronglySorted R (l ++ [x]).
Proof.
induction 1 as [| y l _ IH HF]; intros Hx; cbn.
- constructor; constructor.
- inversion Hx as [| ? ? Hyx Hl]; subst. constructor; auto.
  apply Forall_app. split; auto.
Qed.

Lemma StronglySorted_app_cross (R : A -> A -> Prop) (l1 l2 : list A) :
StronglySorted R (l1 ++ l2) ->
forall x y, In x l1 -> In y l2 -> R x y.
Proof.
induction l1 as [| a l1 IH]; cbn; intros H x y Hx Hy; [contradiction |].
inversion H as [| ? ? Hs HF]; subst.
destruct Hx as [<- | Hx].
- rewrite Forall_forall in HF. apply HF. apply in_or_app. now right.
- eapply IH; eauto.
Qed.

Lemma StronglySorted_map (B : Type) (f : A -> B) (R : B -> B -> Prop)
    (l : list A) :
StronglySorted (fun x y => R (f x) (f y)) l <-> StronglySorted R (map f l).
Proof.
induction l as [| x l IH]; cbn; split; intros H;
  try constructor; inversion H as [| ? ? Hs HF]; subst.
- now apply IH.
- now rewrite Forall_map.
- now apply IH.
- now rewrite Forall_map in HF.
Qed.

Lemma item_last_snoc (l : list A) (x : A) : item_last (l ++ [x]) = Ok x.
Proof.
induction l as [| y l IH]; [reflexivity |].
cbn. rewrite IH. destruct (l ++ [x]) eqn:E; [| reflexivity].
now destruct l.
Qed.

Lemma item_last_ok (l : list A) :
l <> [] -> exists x, item_last l = Ok x /\ In x l.
Proof.
induction l as [| y l IH]; [congruence |]. intros _.
destruct l as [| z l].
- exists y. cbn. auto.
- destruct IH as (x & Hx & Hin); [discriminate |].
  exists x. split; [exact Hx | now right].
Qed.

Lemma item_last_sorted (R : A -> A -> Prop) (l : list A) (x : A) :
StronglySorted R l -> item_last l = Ok x ->
exists l', l = l' ++ [x] /\ Forall (fun y => R y x) l'.
Proof.
induction 1 as [| y l Hs IH HF]; [discriminate |].
destruct l as [| z l].
- cbn. intros [= <-]. exists []. auto.
- intros H. change (item_last (z :: l) = Ok x) in H.
  destruct (IH H) as (l' & E & Hl'). exists (y :: l'). split.
  + cbn. now rewrite E.
  + constructor; auto. rewrite Forall_forall in HF. apply HF.
    rewrite E. apply in_or_app. right. now left.
Qed.
End ListFacts.

(** ** The stable descending sort *)

Section SortFacts.
Variable A : Type.
Variable key : A -> Z.

Lemma insert_desc_perm (x : A) (l : list A) :
Permutation (insert_desc key x l) (x :: l).
Proof.
induction l as [| y l IH]; cbn; [reflexivity |].
destruct (key y <=? key x); [reflexivity |].
rewrite IH. apply perm_swap.
Qed.

Lemma sort_desc_perm (l : list A) : Permutation (sort_desc key l) l.
Proof.
induction l as [| x l IH]; cbn; [reflexivity |].
rewrite insert_desc_perm. now constructor.
Qed.

Lemma sort_desc_length (l : list A) :
List.length (sort_desc key l) = List.length l.
Proof. apply Permutation_length, sort_desc_perm. Qed.

Section Lex.
Variable ord : A -> A -> Prop.

Lemma insert_desc_lex (x : A) (l : list A) :
Forall (ord x) l ->
StronglySorted (desc_then key ord) l ->
StronglySorted (desc_then key ord) (insert_desc key x l).
Proof.
intros Hx Hs. induction Hs as [| y l Hs IH HF]; cbn.
- constructor; constructor.
- inversion Hx as [| ? ? Hxy Hxl]; subst.
  destruct (key y <=? key x) eqn:E.
  + apply Z.leb_le in E. constructor; [constructor; auto |].
    constructor.
    * unfold desc_then. destruct (Z.eq_dec (key x) (key y)); [right | left];
        auto; lia.
    * rewrite Forall_forall in *. intros z Hz.
      specialize (HF z Hz). specialize (Hxl z Hz). unfold desc_then in *.
      destruct (Z.eq_dec (key x) (key z)); [right | left]; auto; lia.
  + apply Z.leb_gt in E. constructor; auto.
    eapply Permutation_Forall;
      [symmetry; apply insert_desc_perm |].
    constructor; auto. left. exact E.
Qed.

Lemma sort_desc_lex (l : list A) :
StronglySorted ord l ->
StronglySorted (desc_then key ord) (sort_desc key l).
Proof.
induction 1 as [| x l Hs IH HF]; cbn; [constructor |].
apply insert_desc_lex; auto.
eapply Permutation_Forall; [symmetry; apply sort_desc_perm | exact HF].
Qed.
End Lex.

Lemma desc_then_desc (ord : A -> A -> Prop) (x y : A) :
desc_then key ord x y -> desc key x y.
Proof. unfold desc_then, desc. lia. Qed.

Lemma insert_desc_sorted (x : A) (l : list A) :
StronglySorted (desc key) l ->
StronglySorted (desc key) (insert_desc key x l).
Proof.
induction 1 as [| y l Hs IH HF]; cbn.
- constructor; constructor.
- destruct (key y <=? key x) eqn:E.
  + apply Z.leb_le in E. constructor; [constructor; auto |].
    constructor; [exact E |].
    eapply Forall_impl; [| exact HF]. unfold desc. intros; lia.
  + apply Z.leb_gt in E. constructor; auto.
    eapply Permutation_Forall; [symmetry; apply insert_desc_perm |].
    constructor; auto. unfold desc. lia.
Qed.

Lemma sort_desc_sorted (l : list A) :
StronglySorted (desc key) (sort_desc key l).
Proof.
induction l as [| x l IH]; cbn; [constructor |].
now apply insert_desc_sorted.
Qed.

(** Stability: among the elements with one key, the order is unchanged. *)
Lemma insert_desc_stable (d : Z) (x : A) (l : list A) :
filter (fun y => key y =? d) (insert_desc key x l) =
filter (fun y => key y =? d) (x :: l).
Proof.
induction l as [| y l IH]; [reflexivity |].
cbn [insert_desc]. destruct (key y <=? key x) eqn:E; [reflexivity |].
apply Z.leb_gt in E. cbn [filter] in *. rewrite IH.
destruct (key x =? d) eqn:Ex; [| reflexivity].
apply Z.eqb_eq in Ex.
destruct (key y =? d) eqn:Ey; [| reflexivity].
apply Z.eqb_eq in Ey. lia.
Qed.

Lemma sort_desc_stable (d : Z) (l : list A) :
filter (fun y => key y =? d) (sort_desc key l) =
filter (fun y => key y =? d) l.
Proof.
induction l as [| x l IH]; [reflexivity |].
cbn [sort_desc]. rewrite insert_desc_stable. cbn. now rewrite IH.
Qed.

Lemma sort_desc_id (l : list A) :
StronglySorted (desc key) l -> sort_desc key l = l.
Proof.
induction 1 as [| x l Hs IH HF]; [reflexivity |].
cbn. rewrite IH. destruct l as [| y l]; [reflexivity |].
cbn. inversion HF as [| ? ? Hxy _]; subst. unfold desc in Hxy.
apply Z.leb_le in Hxy. now rewrite Hxy.
Qed.
End SortFacts.

Section SortSnoc.
Variable A : Type.
Variable key : A -> Z.

Lemma insert_desc_end_comm (x e : A) (l : list A) :
insert_desc key x (insert_end key e l) =
insert_end key e (insert_desc key x l).
Proof.
induction l as [| y l IH]; cbn.
- destruct (key e <=? key x) eqn:E1, (key x <? key e) eqn:E2;
    try reflexivity; exfalso;
    [apply Z.leb_le in E1; apply Z.ltb_lt in E2
    | apply Z.leb_gt in E1; apply Z.ltb_ge in E2]; lia.
- destruct (key y <? key e) eqn:Eye, (key y <=? key x) eqn:Eyx; cbn;
    rewrite ?Eye, ?Eyx.
  + apply Z.ltb_lt in Eye. apply Z.leb_le in Eyx.
    destruct (key e <=? key x) eqn:E1, (key x <? key e) eqn:E2;
      try reflexivity; exfalso;
      [apply Z.leb_le in E1; apply Z.ltb_lt in E2
      | apply Z.leb_gt in E1; apply Z.ltb_ge in E2]; lia.
  + apply Z.ltb_lt in Eye. apply Z.leb_gt in Eyx.
    destruct (key e <=? key x) eqn:E1;
      [apply Z.leb_le in E1; lia | reflexivity].
  + apply Z.ltb_ge in Eye. apply Z.leb_le in Eyx.
    destruct (key x <? key e) eqn:E2;
      [apply Z.ltb_lt in E2; lia | reflexivity].
  + now rewrite IH.
Qed.

Lemma sort_desc_snoc (l : list A) (e : A) :
sort_desc key (l ++ [e]) = insert_end key e (sort_desc key l).
Proof.
induction l as [| x l IH]; [reflexivity |].
cbn. rewrite IH. apply insert_desc_end_comm.
Qed.

Lemma firstn_insert_end_firstn (n : nat) (e : A) (l : list A) :
firstn n (insert_end key e (firstn n l)) = firstn n (insert_end key e l).
Proof.
revert n. induction l as [| y l IH]; intros [| n]; try reflexivity.
cbn [firstn insert_end]. destruct (key y <? key e).
- cbn [firstn]. f_equal.
  change (y :: firstn n l) with (firstn (S n) (y :: l)).
  rewrite firstn_firstn. f_equal. lia.
- cbn [firstn]. f_equal. apply IH.
Qed.

Lemma firstn_insert_end_keep (n : nat) (e : A) (l : list A) :
(n <= List.length l)%nat ->
Forall (fun y => key e <= key y) (firstn n l) ->
firstn n (insert_end key e l) = firstn n l.
Proof.
revert n. induction l as [| y l IH]; intros [| n] Hn HF; try reflexivity.
- cbn in Hn. lia.
- cbn [firstn] in HF. inversion HF as [| ? ? Hy Hl]; subst.
  cbn [insert_end]. apply Z.ltb_ge in Hy. rewrite Hy.
  cbn [firstn]. f_equal. apply IH; [cbn in Hn; lia | exact Hl].
Qed.

(** Keeping only the [n] first elements between two sorts loses nothing
  of the [n] first elements of the whole. *)
Lemma top_snoc (n : nat) (l : list A) (e : A) :
firstn n (sort_desc key (firstn n (sort_desc key l) ++ [e])) =
firstn n (sort_desc key (l ++ [e])).
Proof.
rewrite !sort_desc_snoc.
rewrite (sort_desc_id (key := key) (l := firstn n (sort_desc key l))).
- apply firstn_insert_end_firstn.
- apply StronglySorted_firstn, sort_desc_sorted.
Qed.

Lemma top_keep (n : nat) (l : list A) (e x : A) :
(n <= List.length l)%nat ->
item_last (firstn n (sort_desc key l)) = Ok x ->
key e <= key x ->
firstn n (sort_desc key l) = firstn n (sort_desc key (l ++ [e])).
Proof.
intros Hn Hlast Hle. rewrite sort_desc_snoc. symmetry.
apply firstn_insert_end_keep.
- now rewrite sort_desc_length.
- destruct (item_last_sorted (R := desc key) (l := firstn n (sort_desc key l))
              (x := x)) as (l' & E & Hl'); auto.
  { apply StronglySorted_firstn, sort_desc_sorted. }
  rewrite E. apply Forall_app. split.
  + eapply Forall_impl; [| exact Hl']. unfold desc. intros; lia.
  + constructor; [exact Hle | constructor].
Qed.
End SortSnoc.

(* ================================================================== *)
(** ** [process_entry] *)

Lemma admits_total (slow : list LogEntry) (e : LogEntry) :
exists b, admits slow e = Ok b.
Proof.
unfold admits. destruct (Z.of_nat (List.length slow) <? 3) eqn:E; eauto.
apply Z.ltb_ge in E.
destruct (item_last_ok (l := slow)) as (x & Hx & _).
- destruct slow; [cbn in E; lia | discriminate].
- rewrite Hx. cbn. eauto.
Qed.

Lemma admits_true_iff (slow : list LogEntry) (e : LogEntry) :
admits slow e = Ok true <->
(List.length slow < 3)%nat \/
exists l, item_last slow = Ok l /\ duration l < duration e.
Proof.
unfold admits. destruct (Z.of_nat (List.length slow) <? 3) eqn:E.
- apply Z.ltb_lt in E. split; intros _; [left; lia | reflexivity].
- apply Z.ltb_ge in E. split.
  + destruct (item_last slow) as [l |] eqn:El; cbn; [| discriminate].
    intros [= H]. apply Z.ltb_lt in H. right. eauto.
  + intros [H | (l & -> & H)]; [lia |]. cbn.
    apply Z.ltb_lt in H. now rewrite H.
Qed.

Lemma process_entry_eq (st : State) (e : LogEntry) (b : bool) :
admits (slow_requests st) e = Ok b ->
process_entry st e =
Ok {| total_requests := total_requests st + 1;
      method_counts := incr (method e) (method_counts st);
      ip_counts := incr (ip e) (ip_counts st);
      slow_requests :=
        if b then firstn 3 (sort_desc duration (slow_requests st ++ [e]))
        else slow_requests st |}.
Proof.
intros H. unfold process_entry. rewrite H. cbn. now destruct b.
Qed.

Lemma process_entry_total (st : State) (e : LogEntry) :
exists st', process_entry st e = Ok st'.
Proof.
destruct (admits_total (slow_requests st) e) as (b & Hb).
rewrite (process_entry_eq _ _ Hb). eauto.
Qed.

Lemma process_all_snoc (es : list LogEntry) (e : LogEntry) :
forall st,
  process_all (es ++ [e]) st =
  (st' <- process_all es st ;; process_entry st' e).
Proof.
induction es as [| x es IH]; intros st; cbn.
- now destruct (process_entry st e).
- destruct (process_entry st x) as [st1 |]; cbn; [apply IH | reflexivity].
Qed.

Lemma tally_snoc (f : LogEntry -> string) (es : list LogEntry) (e : LogEntry) :
tally f (es ++ [e]) = incr (f e) (tally f es).
Proof. unfold tally. now rewrite fold_left_app. Qed.

(** The state after any sequence of records, in closed form: the slow list
  is the head of the stable descending sort of everything processed. *)
Lemma process_all_spec (es : list LogEntry) :
exists st,
  process_all es init = Ok st /\
  total_requests st = Z.of_nat (List.length es) /\
  method_counts st = tally method es /\
  ip_counts st = tally ip es /\
  slow_requests st = firstn 3 (sort_desc duration es).
Proof.
induction es as [| e es IH] using rev_ind.
- exists init. repeat split.
- destruct IH as (st & Hrun & Ht & Hm & Hi & Hs).
  rewrite process_all_snoc, Hrun. cbn [bind].
  destruct (admits_total (slow_requests st) e) as (b & Hb).
  rewrite (process_entry_eq _ _ Hb).
  eexists. split; [reflexivity |].
  cbn [total_requests method_counts ip_counts slow_requests].
  rewrite !tally_snoc, Hm, Hi, Ht, length_app. cbn [List.length].
  repeat split; try lia.
  destruct b.
  + rewrite Hs. apply top_snoc.
  + assert (Hn : ~ ((List.length (slow_requests st) < 3)%nat \/
                    exists l, item_last (slow_requests st) = Ok l /\
                              duration l < duration e)).
    { rewrite <- admits_true_iff, Hb. discriminate. }
    destruct (item_last_ok (l := slow_requests st)) as (x & Hx & _).
    { destruct (slow_requests st); [cbn in Hn; exfalso; apply Hn; left; lia
                                   | discriminate]. }
    rewrite Hs in *. apply top_keep with (x := x); auto.
    * rewrite length_firstn, sort_desc_length in Hn. lia.
    * destruct (Z.le_gt_cases (duration e) (duration x)); auto.
      exfalso. apply Hn. right. exists x. split; [exact Hx | lia].
Qed.

Lemma sum_values_incr (k : string) (d : dict) :
sum_values (incr k d) = sum_values d + 1.
Proof.
unfold sum_values.
induction d as [| [k' v] d IH]; cbn; [reflexivity |].
destruct (String.eqb k' k); cbn; [| rewrite IH]; lia.
Qed.

Lemma sum_values_tally (f : LogEntry -> string) (es : list LogEntry) :
sum_values (tally f es) = Z.of_nat (List.length es).
Proof.
induction es as [| e es IH] using rev_ind; [reflexivity |].
rewrite tally_snoc, sum_values_incr, IH, length_app. cbn. lia.
Qed.

Lemma min_duration_le (l : list LogEntry) (m : Z) :
min_duration l = Some m -> forall x, In x l -> m <= duration x.
Proof.
revert m. induction l as [| y l IH]; intros m H x Hx; [contradiction |].
cbn in H. destruct (min_duration l) as [m' |] eqn:E.
- injection H as <-. destruct Hx as [<- | Hx]; [lia |].
  specialize (IH m' eq_refl x Hx). lia.
- injection H as <-. destruct Hx as [<- | Hx]; [lia |].
  destruct l as [| z l]; [contradiction |].
  cbn in E. destruct (min_duration l); discriminate.
Qed.

(* ================================================================== *)
(** ** Parsing one line *)

(** C1 (as stated, refuted): on the line
  [1.2.3.4 - - [10/Oct/2020:13:55:36] "GET /index.html HTTP/1.1" 200 150]
  [parse_line] returns no record: after the closing quote and the space
  the pattern wants digits up to the end of the line, and finds
  [200 150]. *)
Lemma parse_line_status_field_no_record :
parse_line line_with_status = None.
Proof. vm_compute. reflexivity. Qed.

(** C1 (amended): the line with the duration right after the quoted request,
  [1.2.3.4 - - [10/Oct/2020:13:55:36] "GET /index.html HTTP/1.1" 150],
  parses to ip 1.2.3.4, method GET, url /index.html,
  date 10/Oct/2020:13:55:36 and duration 150. *)
Theorem parse_line_sample :
parse_line line_without_status = Some sample_entry.
Proof. vm_compute. reflexivity. Qed.

(** A line without an opening bracket is outside the grammar. *)
Lemma no_bracket_no_grammar (line : list ascii) :
~ In "["%char line -> ~ matches_grammar line.
Proof.
intros Hno (pre & i & mid1 & d & mid2 & m & u & tr & n & eol & E & _).
apply Hno. rewrite E.
do 3 (apply in_or_app; right). apply in_or_app. left. cbn. auto.
Defined.

Lemma analyze_lines_app (l1 l2 : list string) :
forall st,
  analyze_lines (l1 ++ l2) st =
  (st' <- analyze_lines l1 st ;; analyze_lines l2 st').
Proof.
induction l1 as [| line l1 IH]; intros st; cbn; [reflexivity |].
destruct (parse_line line) as [e |]; [| apply IH].
destruct (process_entry st e); cbn; [apply IH | reflexivity].
Qed.

(** C7: a line that does not match the grammar yields no record (and no
  exception), and the loop of [analyze_file] skips it: the run over a file
  that holds the line is the run over the file without it, so the line
  adds nothing to [total_requests] or to any count. *)
Theorem parse_mismatch_skipped (line : string) :
~ matches_grammar (chars line) ->
parse_line line = None /\
forall before after st,
  analyze_lines (before ++ line :: after) st =
  analyze_lines (before ++ after) st.
Proof.
intros Hno.
assert (Hnone : parse_line line = None).
{ destruct (parse_line line) as [e |] eqn:E; [| reflexivity].
  exfalso. apply Hno. eapply parse_line_sound. exact E. }
split; [exact Hnone |].
intros before after st. rewrite !analyze_lines_app.
destruct (analyze_lines before st); cbn; [| reflexivity].
now rewrite Hnone.
Qed.

Lemma parse_mismatch_skipped_witness :
parse_line line_without_date = None /\
forall before after st,
  analyze_lines (before ++ line_without_date :: after) st =
  analyze_lines (before ++ after) st.
Proof.
apply (parse_mismatch_skipped line_without_date).
apply no_bracket_no_grammar. vm_compute. intuition discriminate.
Defined.

(* ================================================================== *)
(** ** The accumulator *)

(** C9: [process_entry] raises nothing, in any state and for any record;
  [slow_requests[-1]] is evaluated only when the length test has failed,
  and then the list has a last element. *)
Theorem process_entry_never_raises (st : State) (entry : LogEntry) :
(exists st', process_entry st entry = Ok st') /\
(exists b, admits (slow_requests st) entry = Ok b) /\
((Z.of_nat (List.length (slow_requests st)) <? 3) = true
 \/ exists l, item_last (slow_requests st) = Ok l).
Proof.
split; [apply process_entry_total |].
split; [apply admits_total |].
destruct (Z.of_nat (List.length (slow_requests st)) <? 3) eqn:E; [now left |].
right. apply Z.ltb_ge in E.
destruct (item_last_ok (l := slow_requests st)) as (x & Hx & _); eauto.
destruct (slow_requests st); [cbn in E; lia | discriminate].
Qed.

(** C5: after any N records from the empty state, [total_requests] is N
  and the values of [method_counts] and of [ip_counts] each sum to N. *)
Theorem counters_after_processing (entries : list LogEntry) :
exists st,
  process_all entries init = Ok st /\
  total_requests st = Z.of_nat (List.length entries) /\
  sum_values (method_counts st) = Z.of_nat (List.length entries) /\
  sum_values (ip_counts st) = Z.of_nat (List.length entries).
Proof.
destruct (process_all_spec entries) as (st & Hrun & Ht & Hm & Hi & _).
exists st. rewrite Hm, Hi, !sum_values_tally. auto.
Qed.

(** C2: [process_entry] appends the record to the slow list exactly when
  the list has fewer than 3 entries or the record's duration is strictly
  above that of the last entry; the new list is then the first 3 of the
  stable descending sort of the old list with the record appended, and
  otherwise the old list.  From the empty state, durations 10, 20, 30, 25
  leave the records of durations 30, 25, 20. *)
Theorem process_entry_slow_rule :
(forall (st : State) (entry : LogEntry),
    let slow := slow_requests st in
    let appended :=
      (List.length slow < 3)%nat \/
      exists l, item_last slow = Ok l /\ duration l < duration entry in
    exists st',
      process_entry st entry = Ok st' /\
      (appended ->
       exists sorted,
         Permutation sorted (slow ++ [entry]) /\
         StronglySorted (desc duration) sorted /\
         (forall d, filter (fun x => duration x =? d) sorted =
                    filter (fun x => duration x =? d) (slow ++ [entry])) /\
         slow_requests st' = firstn 3 sorted) /\
      (~ appended -> slow_requests st' = slow)) /\
(forall e1 e2 e3 e4 : LogEntry,
    let r1 := set_duration e1 10 in
    let r2 := set_duration e2 20 in
    let r3 := set_duration e3 30 in
    let r4 := set_duration e4 25 in
    exists st,
      process_all [r1; r2; r3; r4] init = Ok st /\
      slow_requests st = [r3; r4; r2]).
Proof.
split.
- intros st entry slow appended.
  destruct (admits_total slow entry) as (b & Hb).
  rewrite (process_entry_eq _ _ Hb). eexists. split; [reflexivity |].
  cbn [slow_requests]. fold slow.
  assert (Hiff : b = true <-> appended).
  { unfold appended. rewrite <- admits_true_iff. fold slow. rewrite Hb.
    split; [intros -> | intros [= ->]]; reflexivity. }
  split.
  + intros Happ. apply Hiff in Happ. subst b.
    exists (sort_desc duration (slow ++ [entry])).
    split; [apply sort_desc_perm |].
    split; [apply sort_desc_sorted |].
    split; [intros d; apply sort_desc_stable | reflexivity].
  + intros Hnot. destruct b; [| reflexivity].
    exfalso. apply Hnot, Hiff. reflexivity.
- intros e1 e2 e3 e4 r1 r2 r3 r4. eexists. split; reflexivity.
Qed.

Lemma process_entry_slow_rule_witness :
exists st',
  process_entry init sample_entry = Ok st' /\
  slow_requests st' = [sample_entry].
Proof.
destruct (proj1 process_entry_slow_rule init sample_entry)
  as (st' & Hrun & Happ & _).
exists st'. split; [exact Hrun |].
destruct Happ as (sorted & Hperm & _ & _ & ->).
- left. cbn. lia.
- apply Permutation_sym, Permutation_length_1_inv in Hperm. now subst.
Defined.

(** C3: with 3 entries in the slow list, a record whose duration equals
  the smallest duration of the list is rejected and the list is left as
  it was; four records of duration 50 from the empty state leave the
  first three. *)
Theorem process_entry_tie_rejected :
(forall (st : State) (entry : LogEntry),
    List.length (slow_requests st) = 3%nat ->
    min_duration (slow_requests st) = Some (duration entry) ->
    exists st',
      process_entry st entry = Ok st' /\
      slow_requests st' = slow_requests st) /\
(forall e1 e2 e3 e4 : LogEntry,
    let r1 := set_duration e1 50 in
    let r2 := set_duration e2 50 in
    let r3 := set_duration e3 50 in
    let r4 := set_duration e4 50 in
    exists st,
      process_all [r1; r2; r3; r4] init = Ok st /\
      slow_requests st = [r1; r2; r3]).
Proof.
split.
- intros st entry Hlen Hmin.
  destruct (admits_total (slow_requests st) entry) as (b & Hb).
  rewrite (process_entry_eq _ _ Hb). eexists. split; [reflexivity |].
  cbn [slow_requests]. destruct b; [| reflexivity].
  apply admits_true_iff in Hb. destruct Hb as [Hb | (l & Hl & Hlt)]; [lia |].
  destruct (item_last_ok (l := slow_requests st)) as (x & Hx & Hin).
  { destruct (slow_requests st); [discriminate Hlen | discriminate]. }
  rewrite Hl in Hx. injection Hx as <-.
  pose proof (min_duration_le _ Hmin _ Hin). lia.
- intros e1 e2 e3 e4 r1 r2 r3 r4. eexists. split; reflexivity.
Qed.

Lemma process_entry_tie_rejected_witness :
exists st',
  process_entry
    {| total_requests := 3; method_counts := [("GET"%string, 3)];
       ip_counts := [("1.2.3.4"%string, 3)];
       slow_requests := [set_duration sample_entry 300;
                         set_duration sample_entry 200; sample_entry] |}
    sample_entry = Ok st' /\
  slow_requests st' = [set_duration sample_entry 300;
                       set_duration sample_entry 200; sample_entry].
Proof.
apply (proj1 process_entry_tie_rejected
         {| total_requests := 3; method_counts := [("GET"%string, 3)];
            ip_counts := [("1.2.3.4"%string, 3)];
            slow_requests := [set_duration sample_entry 300;
                              set_duration sample_entry 200; sample_entry] |}
         sample_entry); reflexivity.
Defined.

(* ================================================================== *)
(** ** Positions in the processed sequence *)

Lemma In_firstn (A : Type) (n : nat) (l : list A) (x : A) :
In x (firstn n l) -> In x l.
Proof.
intros H. rewrite <- (firstn_skipn n l). apply in_or_app. now left.
Qed.

Lemma Forall_firstn_of (A : Type) (P : A -> Prop) (n : nat) (l : list A) :
Forall P l -> Forall P (firstn n l).
Proof.
rewrite !Forall_forall. intros H x Hx. apply H. eapply In_firstn; eauto.
Qed.

Section SortMap.
Variables A B : Type.
Variable f : A -> B.
Variable key : B -> Z.

Lemma insert_desc_map (x : A) (l : list A) :
map f (insert_desc (fun a => key (f a)) x l) =
insert_desc key (f x) (map f l).
Proof.
induction l as [| y l IH]; cbn; [reflexivity |].
destruct (key (f y) <=? key (f x)); cbn; [reflexivity | now rewrite IH].
Qed.

Lemma sort_desc_map (l : list A) :
map f (sort_desc (fun a => key (f a)) l) = sort_desc key (map f l).
Proof.
induction l as [| x l IH]; cbn; [reflexivity |].
now rewrite insert_desc_map, IH.
Qed.
End SortMap.

Lemma numbered_snd (a : nat) (es : list LogEntry) :
map snd (numbered a es) = es.
Proof.
revert a. induction es as [| e es IH]; intros a; cbn; [reflexivity |].
now rewrite IH.
Qed.

Lemma numbered_nth (es : list LogEntry) :
forall a,
  Forall (fun p => (a <= fst p)%nat /\ nth_error es (fst p - a) = Some (snd p))
         (numbered a es).
Proof.
induction es as [| e es IH]; intros a; cbn; constructor.
- cbn. rewrite Nat.sub_diag. auto.
- eapply Forall_impl; [| apply (IH (S a))].
  cbn. intros [i x] [Hle Hnth]. cbn in *. split; [lia |].
  replace (i - a)%nat with (S (i - S a)) by lia. exact Hnth.
Qed.

Lemma numbered_sorted (es : list LogEntry) :
forall a, StronglySorted (fun p q => (fst p < fst q)%nat) (numbered a es).
Proof.
induction es as [| e es IH]; intros a; cbn; constructor; auto.
eapply Forall_impl; [| apply (numbered_nth es (S a))].
cbn. intros p [Hle _]. lia.
Qed.

(** C4: after any N records from the empty state the slow list has
  min(3, N) entries, is sorted descending by duration, and lists entries
  of equal duration in the order they were processed: its entries sit at
  positions of the processed sequence such that, along the list, the
  duration goes down or stays equal while the position goes up. *)
Theorem slow_list_invariant (entries : list LogEntry) :
exists st,
  process_all entries init = Ok st /\
  List.length (slow_requests st) = Nat.min 3 (List.length entries) /\
  StronglySorted (desc duration) (slow_requests st) /\
  exists placed : list (nat * LogEntry),
    map snd placed = slow_requests st /\
    Forall (fun p => nth_error entries (fst p) = Some (snd p)) placed /\
    StronglySorted
      (desc_then (fun p => duration (snd p))
                 (fun p q => (fst p < fst q)%nat))
      placed.
Proof.
destruct (process_all_spec entries) as (st & Hrun & _ & _ & _ & Hs).
exists st. split; [exact Hrun |]. rewrite Hs.
split; [now rewrite length_firstn, sort_desc_length |].
split; [apply StronglySorted_firstn, sort_desc_sorted |].
exists (firstn 3 (sort_desc (fun p => duration (snd p)) (numbered 0 entries))).
split; [| split].
- rewrite <- firstn_map, sort_desc_map, numbered_snd. reflexivity.
- apply Forall_firstn_of.
  eapply Permutation_Forall; [symmetry; apply sort_desc_perm |].
  eapply Forall_impl; [| apply (numbered_nth entries 0)].
  cbn. intros p [_ H]. now rewrite Nat.sub_0_r in H.
- apply StronglySorted_firstn, sort_desc_lex, numbered_sorted.
Qed.

(* ================================================================== *)
(** ** [get_top_ips] *)

Lemma slice_to_firstn (A : Type) (n : Z) (l : list A) :
exists m, slice_to n l = firstn m l /\ (0 <= n -> m = Z.to_nat n).
Proof.
unfold slice_to. destruct (0 <=? n) eqn:E.
- eauto.
- apply Z.leb_gt in E. eexists. split; [reflexivity | lia].
Qed.

(** C8 (as stated, refuted): on the counts A:5, B:5, C:2, D:1 the call
  [get_top_ips(-1)] returns 3 pairs, which is more than n = -1: a negative
  n cuts that many pairs off the end. *)
Lemma get_top_ips_negative_n :
get_top_ips abcd_state (-1) = [("A"%string, 5); ("B"%string, 5); ("C"%string, 2)] /\
~ (Z.of_nat (List.length (get_top_ips abcd_state (-1))) <= -1).
Proof. split; [reflexivity | vm_compute; congruence]. Qed.

Lemma abcd_orders (l : dict) :
Permutation abcd_counts l ->
firstn 3 (sort_desc snd l) = [("A"%string, 5); ("B"%string, 5); ("C"%string, 2)] \/
firstn 3 (sort_desc snd l) = [("B"%string, 5); ("A"%string, 5); ("C"%string, 2)].
Proof.
intros Hperm.
assert (Hlen : List.length l = 4%nat)
  by (rewrite <- (Permutation_length Hperm); reflexivity).
assert (Hnd : NoDup l).
{ eapply Permutation_NoDup; [exact Hperm |].
  unfold abcd_counts.
  repeat (constructor; [cbn; intuition discriminate |]). constructor. }
assert (Hin : forall x, In x l -> In x abcd_counts)
  by (intros x Hx; eapply Permutation_in; [symmetry; exact Hperm | exact Hx]).
destruct l as [| a [| b [| c [| d [| ? ?]]]]]; try discriminate Hlen.
pose proof (Hin a (or_introl eq_refl)) as Ha.
pose proof (Hin b (or_intror (or_introl eq_refl))) as Hb.
pose proof (Hin c (or_intror (or_intror (or_introl eq_refl)))) as Hc.
pose proof (Hin d (or_intror (or_intror (or_intror (or_introl eq_refl))))) as Hd.
clear Hin Hperm Hlen.
inversion Hnd as [| ? ? Na Hnd1]; subst.
inversion Hnd1 as [| ? ? Nb Hnd2]; subst.
inversion Hnd2 as [| ? ? Nc _]; subst.
clear Hnd Hnd1 Hnd2. cbn in Na, Nb, Nc.
unfold abcd_counts in *. cbn in Ha, Hb, Hc, Hd.
destruct Ha as [<- | [<- | [<- | [<- | []]]]];
  destruct Hb as [<- | [<- | [<- | [<- | []]]]];
  try (exfalso; apply Na; tauto);
  destruct Hc as [<- | [<- | [<- | [<- | []]]]];
  try (exfalso; apply Na; tauto); try (exfalso; apply Nb; tauto);
  destruct Hd as [<- | [<- | [<- | [<- | []]]]];
  try (exfalso; apply Na; tauto); try (exfalso; apply Nb; tauto);
  try (exfalso; apply Nc; tauto);
  (left; reflexivity) || (right; reflexivity).
Qed.

(** C8 (amended): for every state and every n >= 0, [get_top_ips(n)]
  returns at most n pairs of [ip_counts], sorted descending by count, and
  no returned pair has a smaller count than an omitted one; on the counts
  A:5, B:5, C:2, D:1, in whatever order the dictionary holds them,
  [get_top_ips(3)] returns A and B in some order, then C, and not D. *)
Theorem get_top_ips_spec :
(forall (st : State) (n : Z),
    0 <= n ->
    let top := get_top_ips st n in
    Z.of_nat (List.length top) <= n /\
    StronglySorted (desc snd) top /\
    exists omitted,
      Permutation (top ++ omitted) (ip_counts st) /\
      forall p o, In p top -> In o omitted -> snd o <= snd p) /\
(forall st : State,
    Permutation abcd_counts (ip_counts st) ->
    get_top_ips st 3 = [("A"%string, 5); ("B"%string, 5); ("C"%string, 2)] \/
    get_top_ips st 3 = [("B"%string, 5); ("A"%string, 5); ("C"%string, 2)]).
Proof.
split.
- intros st n Hn top. unfold top, get_top_ips.
  destruct (slice_to_firstn n (sort_desc snd (ip_counts st)))
    as (m & -> & Hm).
  specialize (Hm Hn). split; [| split].
  + pose proof (firstn_le_length m (sort_desc snd (ip_counts st))).
    rewrite length_firstn. lia.
  + apply StronglySorted_firstn, sort_desc_sorted.
  + exists (skipn m (sort_desc snd (ip_counts st))). split.
    * rewrite firstn_skipn. apply sort_desc_perm.
    * intros p o Hp Ho.
      apply (@StronglySorted_app_cross _ (desc snd)
               (firstn m (sort_desc snd (ip_counts st)))
               (skipn m (sort_desc snd (ip_counts st)))); auto.
      rewrite firstn_skipn. apply sort_desc_sorted.
- intros st Hperm. unfold get_top_ips.
  change (slice_to 3 (sort_desc snd (ip_counts st)))
    with (firstn 3 (sort_desc snd (ip_counts st))).
  now apply abcd_orders.
Qed.

Lemma get_top_ips_spec_witness :
let top := get_top_ips abcd_state 2 in
Z.of_nat (List.length top) <= 2 /\
StronglySorted (desc snd) top /\
exists omitted,
  Permutation (top ++ omitted) (ip_counts abcd_state) /\
  forall p o, In p top -> In o omitted -> snd o <= snd p.
Proof.
apply (proj1 get_top_ips_spec abcd_state 2). lia.
Defined.

(* ================================================================== *)
(** ** The order of the keys of [ip_counts] *)

Lemma first_seen_lt (a : string) (es : list LogEntry) :
forall i, first_seen a es = Some i -> (i < List.length es)%nat.
Proof.
induction es as [| e es IH]; cbn; intros i H; [discriminate |].
destruct (String.eqb (ip e) a).
- injection H as <-. lia.
- destruct (first_seen a es) as [j |]; [| discriminate].
  cbn in H. injection H as <-. specialize (IH j eq_refl). lia.
Qed.

Lemma first_seen_snoc (a : string) (es : list LogEntry) (e : LogEntry) :
first_seen a (es ++ [e]) =
match first_seen a es with
| Some i => Some i
| None => if String.eqb (ip e) a then Some (List.length es) else None
end.
Proof.
induction es as [| x es IH]; cbn.
- now destruct (String.eqb (ip e) a).
- destruct (String.eqb (ip x) a); [reflexivity |].
  rewrite IH. destruct (first_seen a es); cbn; [reflexivity |].
  now destruct (String.eqb (ip e) a).
Qed.

Lemma seen_before_snoc (es : list LogEntry) (e : LogEntry) (a b : string) :
seen_before es a b -> seen_before (es ++ [e]) a b.
Proof.
intros (i & j & Ha & Hb & Hlt). exists i, j.
rewrite !first_seen_snoc, Ha, Hb. auto.
Qed.

Lemma incr_keys_present (k : string) (d : dict) :
In k (map fst d) -> map fst (incr k d) = map fst d.
Proof.
induction d as [| [k' v] d IH]; cbn; [contradiction |].
destruct (String.eqb k' k) eqn:E; cbn; [reflexivity |].
intros [H | H]; [apply String.eqb_neq in E; congruence |].
now rewrite IH.
Qed.

Lemma incr_keys_absent (k : string) (d : dict) :
~ In k (map fst d) -> map fst (incr k d) = map fst d ++ [k].
Proof.
induction d as [| [k' v] d IH]; cbn; [reflexivity |].
intros H. destruct (String.eqb k' k) eqn:E; cbn.
- apply String.eqb_eq in E. tauto.
- rewrite IH; tauto.
Qed.

(** The keys of [ip_counts] are the addresses seen, in first-seen order. *)
Lemma tally_ip_keys (es : list LogEntry) :
(forall a, In a (map fst (tally ip es)) <-> first_seen a es <> None) /\
StronglySorted (seen_before es) (map fst (tally ip es)).
Proof.
induction es as [| e es [IHin IHs]] using rev_ind.
- split; [| constructor]. intros a. cbn. tauto.
- rewrite tally_snoc.
  destruct (in_dec string_dec (ip e) (map fst (tally ip es))) as [Hin | Hout].
  + rewrite (incr_keys_present _ _ Hin). split.
    * intros a. rewrite IHin, first_seen_snoc.
      destruct (first_seen a es) eqn:Ea; [tauto |].
      destruct (String.eqb (ip e) a) eqn:E; [| tauto].
      apply String.eqb_eq in E. subst a. apply IHin in Hin. tauto.
    * eapply StronglySorted_impl; [| exact IHs].
      intros; now apply seen_before_snoc.
  + rewrite (incr_keys_absent _ _ Hout).
    assert (Hnone : first_seen (ip e) es = None).
    { destruct (first_seen (ip e) es) eqn:E; [| reflexivity].
      exfalso. apply Hout, IHin. congruence. }
    split.
    * intros a. rewrite in_app_iff, IHin, first_seen_snoc. cbn.
      destruct (first_seen a es) eqn:Ea.
      -- split; [discriminate | intros _; left; discriminate].
      -- destruct (String.eqb (ip e) a) eqn:E.
         ++ apply String.eqb_eq in E. split; [discriminate | auto].
         ++ apply String.eqb_neq in E. tauto.
    * apply StronglySorted_snoc.
      -- eapply StronglySorted_impl; [| exact IHs].
         intros; now apply seen_before_snoc.
      -- rewrite Forall_forall. intros a Ha. apply IHin in Ha.
         destruct (first_seen a es) as [i |] eqn:Ea; [| congruence].
         exists i, (List.length es). rewrite !first_seen_snoc, Ea, Hnone.
         rewrite String.eqb_refl. repeat split.
         now apply first_seen_lt with (a := a).
Qed.

(* ================================================================== *)
(** ** The matcher is complete for the language of the pattern *)

Section ReComplete.
Variable R : Type.

Lemma orelse_not_none_l (a : option R) (b : unit -> option R) :
a <> None -> orelse a b <> None.
Proof. destruct a; cbn; congruence. Qed.

Lemma orelse_not_none_r (a : option R) (b : unit -> option R) :
b tt <> None -> orelse a b <> None.
Proof. destruct a; cbn; congruence. Qed.

Lemma rep_complete (cs : cset) (greedy : bool) (rest : list ascii)
    (k : list ascii -> option R) (w : list ascii) :
k rest <> None ->
forall lo hi,
  all_in cs w -> (lo <= List.length w)%nat ->
  match hi with
  | Some h => (List.length w <= h)%nat
  | None => True
  end ->
  rep cs greedy lo hi (w ++ rest) k <> None.
Proof.
intros Hk. induction w as [| c w IH]; intros lo hi Hall Hlo Hhi.
- destruct lo as [| lo]; [| cbn in Hlo; lia].
  rewrite rep_zero. cbn [app].
  destruct greedy; [apply orelse_not_none_r | apply orelse_not_none_l];
    exact Hk.
- unfold all_in in Hall. cbn in Hall. apply andb_prop in Hall.
  destruct Hall as [Hc Hw].
  assert (Hrec : forall lo',
             (lo' <= List.length w)%nat ->
             rep cs greedy lo' (hi_pred hi) (w ++ rest) k <> None).
  { intros lo' Hlo'. apply IH; auto.
    destruct hi as [h |]; cbn in *; auto; lia. }
  destruct lo as [| lo].
  + rewrite rep_zero.
    assert (Hmore : rep_more cs greedy hi ((c :: w) ++ rest) k <> None).
    { cbn. rewrite Hc.
      replace (hi_open hi) with true
        by (destruct hi as [[| h] |]; cbn in *; auto; lia).
      cbn. apply Hrec. lia. }
    destruct greedy; [apply orelse_not_none_l | apply orelse_not_none_r];
      exact Hmore.
  + cbn. rewrite Hc. apply Hrec. cbn in Hlo. lia.
Qed.

Lemma bt_complete (r : regex) :
forall w rest (k : list ascii -> groups -> option R),
  denote r w rest ->
  (forall g, k rest g <> None) ->
  forall g, bt r (w ++ rest) g k <> None.
Proof.
induction r as [| cs | r1 IH1 r2 IH2 | r1 IH1 r2 IH2
                | cs lo hi greedy | name r1 IH1 |];
  intros w rest k D Hk g; cbn [bt denote] in *.
- subst w. apply Hk.
- destruct D as (c & -> & Hc). cbn. rewrite Hc. apply Hk.
- destruct D as (w1 & w2 & -> & D1 & D2). rewrite <- app_assoc.
  apply IH1; [exact D1 |]. intros g'. apply IH2; assumption.
- destruct D as [D | D].
  + apply orelse_not_none_l. now apply IH1.
  + apply orelse_not_none_r. now apply IH2.
- destruct D as (Hall & Hlo & Hhi).
  apply rep_complete with (k := fun s' => k s' g); auto.
- apply IH1; [exact D |]. intros g'. apply Hk.
- destruct D as (-> & [-> | ->]); cbn; apply Hk.
Qed.
End ReComplete.

Lemma search_complete (r : regex) (pre w post : list ascii) :
denote r w post -> search r (pre ++ w ++ post) <> None.
Proof.
intros D.
assert (H0 : bt r (w ++ post) [] (fun _ g => Some g) <> None).
{ apply bt_complete; [exact D |]. intros g H. inversion H. }
induction pre as [| c pre IH].
- cbn [app]. destruct (w ++ post); cbn;
  destruct (bt r _ [] (fun _ g => Some g)); congruence.
- cbn. destruct (bt r (c :: pre ++ w ++ post) [] (fun _ g => Some g));
  [discriminate | exact IH].
Qed.

Lemma denote_of_lit (s : string) (rest : list ascii) :
denote (lit s) (chars s) rest.
Proof.
induction s as [| c s IH]; [reflexivity |].
destruct s as [| c' s'].
- cbn. exists c. split; [reflexivity | apply Ascii.eqb_refl].
- change (lit (String c (String c' s')))
  with (Cat (Sym (Chr c)) (lit (String c' s'))).
cbn [denote]. exists [c], (chars (String c' s')).
split; [reflexivity |]. split; [| exact IH].
exists c. split; [reflexivity | apply Ascii.eqb_refl].
Qed.

Lemma denote_of_chr (c : ascii) :
exists a, [c] = [a] /\ in_cset (Chr c) a = true.
Proof. exists c. split; [reflexivity | apply Ascii.eqb_refl]. Qed.

Lemma denote_of_method (m : string) (rest : list ascii) :
In m methods -> denote method_re (chars m) rest.
Proof.
unfold methods, method_re. cbn [In denote].
intros [<- | [<- | [<- | [<- | [<- | [<- | []]]]]]];
[left | right; left | do 2 right; left | do 3 right; left
 | do 4 right; left | do 5 right];
apply denote_of_lit.
Qed.

Ltac rep_goal :=
unfold lazy_any; cbn [denote]; repeat split; first [assumption | lia].

Ltac cat_split w :=
exists w; eexists; split; [reflexivity | split].

Lemma denote_of_ip (w rest : list ascii) :
ipv4_shaped w -> denote ip_re w rest.
Proof.
intros (o1 & o2 & o3 & o4 & -> & H1 & H2 & H3 & H4).
unfold ip_re. cbn [denote chars list_ascii_of_string].
cat_split o1; [exact H1 |].
cat_split ["."%char]; [apply denote_of_chr |].
cat_split o2; [exact H2 |].
cat_split ["."%char]; [apply denote_of_chr |].
cat_split o3; [exact H3 |].
cat_split ["."%char]; [apply denote_of_chr | exact H4].
Qed.

Lemma length_nonempty (A : Type) (w : list A) :
w <> [] -> (1 <= List.length w)%nat.
Proof. destruct w; cbn; [congruence | lia]. Qed.

Lemma grammar_log_pattern (line : list ascii) :
matches_grammar line ->
exists pre w post, line = pre ++ w ++ post /\ denote LOG_PATTERN w post.
Proof.
intros (pre & i & mid1 & d & mid2 & m & u & tr & n & eol & -> &
      Hi & Hm1 & Hd & Hm2 & Hm & (Hu1 & Hu2) & Htr & (Hn1 & Hn2) & He).
exists pre,
(i ++ mid1 ++ chars "[" ++ d ++ chars "]" ++ mid2 ++ [dquote] ++
 chars m ++ chars " " ++ u ++ tr ++ [dquote] ++ chars " " ++ n ++ []),
eol.
split; [now rewrite <- !app_assoc |].
apply length_nonempty in Hu1, Hn1.
unfold LOG_PATTERN. cbn [denote chars list_ascii_of_string].
cat_split i; [now apply denote_of_ip |].
cat_split mid1; [rep_goal |].
cat_split ["["%char]; [apply denote_of_chr |].
cat_split d; [rep_goal |].
cat_split ["]"%char]; [apply denote_of_chr |].
cat_split mid2; [rep_goal |].
cat_split [dquote]; [apply denote_of_chr |].
cat_split (list_ascii_of_string m);
[apply (denote_of_method _ Hm) |].
cat_split [" "%char]; [apply denote_of_chr |].
cat_split u; [rep_goal |].
cat_split tr; [rep_goal |].
cat_split [dquote]; [apply denote_of_chr |].
cat_split [" "%char]; [apply denote_of_chr |].
cat_split n; [rep_goal |].
cbn [app]. tauto.
Qed.

(** X1: [parse_line] returns [None] exactly on the lines outside the
    grammar: a line is skipped if and only if it does not have the format
    anywhere in it; the backtracking search misses no line that has it. *)
Theorem parse_line_grammar (line : string) :
  parse_line line = None <-> ~ matches_grammar (chars line).
Proof.
  split.
  - intros Hnone Hg. apply grammar_log_pattern in Hg.
    destruct Hg as (pre & w & post & E & D).
    pose proof (@search_complete LOG_PATTERN pre w post D) as Hs.
    apply parse_line_none_iff in Hnone. unfold chars in E.
    rewrite E in Hnone. contradiction.
  - intros Hno. destruct (parse_line line) as [e |] eqn:E; [| reflexivity].
    exfalso. apply Hno. eapply parse_line_sound. exact E.
Qed.

(* ================================================================== *)
(** ** The command line *)

(** C6 (the code departs from it): when the input path is neither a file
nor a directory, [main] prints the message and returns 1, but the
[__main__] block calls [main()] without passing its value to
[sys.exit], so the exit status is 0. *)
Theorem invalid_path_exit_status (fs : FileSystem) (input : string)
    (output : option string) :
isfile fs input = false ->
isdir fs input = false ->
main fs input output = ([Print bad_path_message], Ok (Some 1)) /\
run fs input output = ([Print bad_path_message], 0).
Proof.
intros Hf Hd. unfold run, main. rewrite Hf, Hd. split; reflexivity.
Qed.

Lemma invalid_path_exit_status_witness :
main empty_fs "missing.log" None = ([Print bad_path_message], Ok (Some 1)) /\
run empty_fs "missing.log" None = ([Print bad_path_message], 0).
Proof.
apply (invalid_path_exit_status empty_fs "missing.log" None); reflexivity.
Defined.

(* ================================================================== *)
(** ** What the named groups capture *)

Lemma consumed_app (w s' : list ascii) : consumed (w ++ s') s' = w.
Proof.
  unfold consumed. rewrite length_app.
  replace (List.length w + List.length s' - List.length s')%nat
    with (List.length w + 0)%nat by lia.
  rewrite firstn_app_2. cbn. apply app_nil_r.
Qed.

Lemma bt_groups_sound (R : Type) (r : regex) :
  wf r = true ->
  forall s g (k : list ascii -> groups -> option R) x,
    bt r s g k = Some x ->
    exists w s' g',
      s = w ++ s' /\ denote_groups r w s' g g' /\ k s' g' = Some x.
Proof.
  induction r as [| cs | r1 IH1 r2 IH2 | r1 IH1 r2 IH2
                  | cs lo hi greedy | name r1 IH1 |];
    intros Hwf s g k x H; cbn [bt wf denote_groups] in *.
  - exists [], s, g. auto.
  - destruct s as [| c s]; [discriminate |].
    destruct (in_cset cs c) eqn:Hc; [| discriminate].
    exists [c], s, g. repeat split; eauto.
  - apply andb_prop in Hwf. destruct Hwf as [Hw1 Hw2].
    apply (IH1 Hw1) in H. destruct H as (w1 & s1 & g1 & -> & D1 & H).
    apply (IH2 Hw2) in H. destruct H as (w2 & s2 & g2 & -> & D2 & H).
    exists (w1 ++ w2), s2, g2. rewrite app_assoc. repeat split; auto.
    exists w1, w2, g1. auto.
  - apply andb_prop in Hwf. destruct Hwf as [Hw1 Hw2].
    apply orelse_some in H. destruct H as [H | H].
    + apply (IH1 Hw1) in H. destruct H as (w & s' & g' & -> & D & H).
      exists w, s', g'. auto.
    + apply (IH2 Hw2) in H. destruct H as (w & s' & g' & -> & D & H).
      exists w, s', g'. auto.
  - apply rep_sound in H. destruct H as (w & s' & -> & Hw & Hlo & Hhi & Hk).
    exists w, s', g. repeat split; auto.
    destruct hi as [h |]; auto.
    apply Nat.leb_le in Hwf. lia.
  - apply (IH1 Hwf) in H. destruct H as (w & s' & g' & -> & D & H).
    rewrite consumed_app in H. exists w, s', ((name, w) :: g').
    repeat split; auto. exists g'. auto.
  - destruct s as [| c [| c' s]]; try discriminate.
    + exists [], [], g. repeat split; auto.
    + destruct (Ascii.eqb c newline) eqn:E; [| discriminate].
      apply Ascii.eqb_eq in E. subst c.
      exists [], [newline], g. repeat split; auto.
Qed.

Lemma search_groups_sound (r : regex) (s : list ascii) (g : groups) :
  wf r = true ->
  search r s = Some g ->
  exists pre w post, s = pre ++ w ++ post /\ denote_groups r w post [] g.
Proof.
  intros Hwf. induction s as [| c s IH]; cbn; intros H.
  - destruct (bt r [] [] (fun _ g0 => Some g0)) eqn:E; [| discriminate].
    apply (bt_groups_sound _ Hwf) in E.
    destruct E as (w & s' & g' & Hs & D & [= ->]).
    injection H as <-. exists [], w, s'. auto.
  - destruct (bt r (c :: s) [] (fun _ g0 => Some g0)) eqn:E.
    + apply (bt_groups_sound _ Hwf) in E.
      destruct E as (w & s' & g' & Hs & D & [= ->]).
      injection H as <-. exists [], w, s'. auto.
    + apply IH in H. destruct H as (pre & w & post & -> & D).
      exists (c :: pre), w, post. auto.
Qed.

Lemma denote_groups_ip (w rest : list ascii) (g g' : groups) :
  denote_groups ip_re w rest g g' -> ipv4_shaped w /\ g' = g.
Proof.
  unfold ip_re. cbn [denote_groups].
  intros (o1 & r1 & g1 & -> & (H1 & ->) &
          d1 & r2 & g2 & -> & (E1 & ->) &
          o2 & r3 & g3 & -> & (H2 & ->) &
          d2 & r4 & g4 & -> & (E2 & ->) &
          o3 & r5 & g5 & -> & (H3 & ->) &
          d3 & o4 & g6 & -> & (E3 & ->) & (H4 & ->)).
  apply denote_chr in E1, E2, E3. subst d1 d2 d3.
  split; [| reflexivity].
  exists o1, o2, o3, o4. repeat split; try apply H1; try apply H2;
    try apply H3; try apply H4.
Qed.

Lemma denote_groups_lit (s : string) (w rest : list ascii) (g g' : groups) :
  denote_groups (lit s) w rest g g' -> w = chars s /\ g' = g.
Proof.
  revert w rest g g'. induction s as [| c s IH]; intros w rest g g' H.
  - exact H.
  - destruct s as [| c' s'].
    + cbn in H. destruct H as ((a & -> & E) & ->).
      apply Ascii.eqb_eq in E. subst a. auto.
    + change (lit (String c (String c' s')))
        with (Cat (Sym (Chr c)) (lit (String c' s'))) in H.
      cbn [denote_groups] in H.
      destruct H as (w1 & w2 & g1 & -> & (E & ->) & H2).
      apply denote_chr in E. subst w1.
      apply IH in H2. destruct H2 as [-> ->]. auto.
Qed.

Lemma denote_groups_method (w rest : list ascii) (g g' : groups) :
  denote_groups method_re w rest g g' ->
  (exists m, In m methods /\ w = chars m) /\ g' = g.
Proof.
  unfold method_re. cbn [denote_groups].
  intros H.
  repeat (destruct H as [H | H]);
    apply denote_groups_lit in H; destruct H as [-> ->];
    (split; [| reflexivity]);
    eexists; (split; [| reflexivity]); cbn; tauto.
Qed.

Lemma int_acc_nonneg (w : list ascii) :
  all_in Digit w ->
  forall acc, 0 <= acc -> 0 <= int_acc acc (string_of_list_ascii w).
Proof.
  unfold all_in. induction w as [| c w IH]; cbn [forallb]; intros H acc Hacc.
  - exact Hacc.
  - apply andb_prop in H. destruct H as [Hc Hw].
    cbn [string_of_list_ascii int_acc]. apply IH; [exact Hw |].
    cbn [in_cset] in Hc. unfold is_digit in Hc. apply andb_prop in Hc.
    destruct Hc as [Hlo _]. apply Nat.leb_le in Hlo.
    unfold digit_value. lia.
Qed.

(** X2: the record [parse_line] returns is cut out of the line: the line
    reads, in this order, the ip (IPv4-shaped), text, the date between
    brackets, text, a quote, the method (one of the six), a space, the url
    (not empty, no whitespace), text, a quote, a space and the digits of
    the duration up to the end of the line; the duration is their value and
    is not negative. *)
Theorem parse_line_fields (line : string) (entry : LogEntry) :
  parse_line line = Some entry ->
  exists pre mid1 mid2 trail digits eol,
    chars line =
      pre ++ chars (ip entry) ++ mid1 ++ chars "[" ++ chars (date entry) ++
      chars "]" ++ mid2 ++ [dquote] ++ chars (method entry) ++ chars " " ++
      chars (url entry) ++ trail ++ [dquote] ++ chars " " ++ digits ++ eol /\
    ipv4_shaped (chars (ip entry)) /\
    all_in AnyChar (chars (date entry)) /\
    In (method entry) methods /\
    (url entry <> EmptyString /\ all_in NonSpace (chars (url entry))) /\
    (digits <> [] /\ all_in Digit digits) /\
    duration entry = int (string_of_list_ascii digits) /\
    0 <= duration entry /\
    (eol = [] \/ eol = [newline]).
Proof.
  unfold parse_line.
  destruct (search LOG_PATTERN (list_ascii_of_string line)) as [g |] eqn:E;
    [| discriminate].
  intros [= <-].
  apply (search_groups_sound _ _ wf_LOG_PATTERN) in E.
  destruct E as (pre & w & post & Hline & D).
  unfold LOG_PATTERN in D. cbn [denote_groups] in D.
  destruct D as
    (i & r1 & g1 & -> & (gi & Hi & ->) &
     mid1 & r2 & g2 & -> & (Hm1 & ->) &
     c1 & r3 & g3 & -> & (Hc1 & ->) &
     d & r4 & g4 & -> & (gd & (Hd & ->) & ->) &
     c2 & r5 & g5 & -> & (Hc2 & ->) &
     mid2 & r6 & g6 & -> & (Hm2 & ->) &
     c3 & r7 & g7 & -> & (Hc3 & ->) &
     m & r8 & g8 & -> & (gm & Hm & ->) &
     c4 & r9 & g9 & -> & (Hc4 & ->) &
     u & r10 & g10 & -> & (gu & (Hu & ->) & ->) &
     tr & r11 & g11 & -> & (Htr & ->) &
     c5 & r12 & g12 & -> & (Hc5 & ->) &
     c6 & r13 & g13 & -> & (Hc6 & ->) &
     n & e & g14 & -> & (gn & (Hn & ->) & ->) & (-> & Hpost) & ->).
  apply denote_chr in Hc1, Hc2, Hc3, Hc4, Hc5, Hc6. subst.
  apply denote_groups_ip in Hi. destruct Hi as [Hi ->].
  apply denote_groups_method in Hm. destruct Hm as [(ms & Hin & ->) ->].
  destruct Hu as (Hu1 & Hu2 & _). destruct Hn as (Hn1 & Hn2 & _).
  destruct Hd as (Hd & _).
  cbn [group String.eqb Ascii.eqb Bool.eqb ip method url date duration].
  unfold chars in *.
  rewrite !list_ascii_of_string_of_list_ascii, string_of_list_ascii_of_string.
  exists pre, mid1, mid2, tr, n, post.
  split.
  { rewrite Hline. cbn [list_ascii_of_string].
    repeat rewrite <- app_assoc. reflexivity. }
  apply nonempty_length in Hu2, Hn2.
  repeat (split; [first [assumption | reflexivity] |]).
  split; [split; [| assumption] |].
  { intros Hempty. apply Hu2.
    rewrite <- (list_ascii_of_string_of_list_ascii u), Hempty. reflexivity. }
  split; [split; assumption |].
  split; [reflexivity |].
  split; [| assumption].
  unfold int. now apply int_acc_nonneg.
Qed.

Lemma parse_line_fields_witness :
  exists pre mid1 mid2 trail digits eol,
    chars line_without_status =
      pre ++ chars (ip sample_entry) ++ mid1 ++ chars "[" ++
      chars (date sample_entry) ++ chars "]" ++ mid2 ++ [dquote] ++
      chars (method sample_entry) ++ chars " " ++ chars (url sample_entry) ++
      trail ++ [dquote] ++ chars " " ++ digits ++ eol /\
    ipv4_shaped (chars (ip sample_entry)) /\
    all_in AnyChar (chars (date sample_entry)) /\
    In (method sample_entry) methods /\
    (url sample_entry <> EmptyString /\
     all_in NonSpace (chars (url sample_entry))) /\
    (digits <> [] /\ all_in Digit digits) /\
    duration sample_entry = int (string_of_list_ascii digits) /\
    0 <= duration sample_entry /\
    (eol = [] \/ eol = [newline]).
Proof.
  apply (@parse_line_fields line_without_status sample_entry).
  vm_compute. reflexivity.
Defined.

(* ================================================================== *)
(** ** The newline that ends a line of a file *)

Lemma rep_newline (R : Type) (cs : cset) (greedy : bool) :
  in_cset cs newline = false ->
  forall s,
    ~ In newline s ->
    forall lo hi (k k' : list ascii -> option R),
      (forall s', ~ In newline s' -> k' (s' ++ [newline]) = k s') ->
      rep cs greedy lo hi (s ++ [newline]) k' = rep cs greedy lo hi s k.
Proof.
  intros Hcs. induction s as [| c s IH]; intros Hs lo hi k k' Hk.
  - cbn [app]. destruct lo as [| lo].
    + rewrite !rep_zero. unfold rep_more. cbn beta iota.
      rewrite Hcs, andb_false_r. rewrite <- (Hk [] Hs). reflexivity.
    + cbn [rep]. now rewrite Hcs.
  - assert (Hs' : ~ In newline s) by (intros H; apply Hs; now right).
    destruct lo as [| lo].
    + rewrite !rep_zero. unfold rep_more. cbn [app]. cbn beta iota.
      rewrite (IH Hs' 0%nat (hi_pred hi) k k' Hk).
      rewrite <- (Hk (c :: s) Hs). reflexivity.
    + cbn [rep app]. destruct (in_cset cs c); [| reflexivity]. now apply IH.
Qed.

Lemma consumed_newline (s s' : list ascii) :
  consumed (s ++ [newline]) (s' ++ [newline]) = consumed s s'.
Proof.
  unfold consumed. rewrite !length_app. cbn [List.length].
  replace (List.length s + 1 - (List.length s' + 1))%nat
    with (List.length s - List.length s')%nat by lia.
  rewrite firstn_app.
  replace (List.length s - List.length s' - List.length s)%nat
    with 0%nat by lia.
  cbn. apply app_nil_r.
Qed.

Lemma bt_newline (R : Type) (r : regex) :
  newline_free r = true ->
  forall s,
    ~ In newline s ->
    forall g (k k' : list ascii -> groups -> option R),
      (forall s' g', ~ In newline s' -> k' (s' ++ [newline]) g' = k s' g') ->
      bt r (s ++ [newline]) g k' = bt r s g k.
Proof.
  induction r as [| cs | r1 IH1 r2 IH2 | r1 IH1 r2 IH2
                  | cs lo hi greedy | name r1 IH1 |];
    intros Hnf s Hs g k k' Hk; cbn [bt newline_free] in *.
  - now apply Hk.
  - apply negb_true_iff in Hnf. destruct s as [| c s]; cbn [app].
    + now rewrite Hnf.
    + destruct (in_cset cs c); [| reflexivity].
      apply Hk. intros H. apply Hs. now right.
  - apply andb_prop in Hnf. destruct Hnf as [H1 H2].
    apply IH1; auto.
  - apply andb_prop in Hnf. destruct Hnf as [H1 H2].
    rewrite (IH1 H1 s Hs g k k' Hk), (IH2 H2 s Hs g k k' Hk). reflexivity.
  - apply negb_true_iff in Hnf. apply rep_newline; auto.
  - apply IH1; auto. intros s' g' Hs'.
    rewrite consumed_newline. now apply Hk.
  - destruct s as [| c [| c' s]]; cbn [app].
    + cbn. apply (Hk [] g Hs).
    + destruct (Ascii.eqb c newline) eqn:E; [| reflexivity].
      apply Ascii.eqb_eq in E. exfalso. apply Hs. left. now symmetry.
    + reflexivity.
Qed.

Lemma search_newline (r : regex) :
  newline_free r = true ->
  forall s, ~ In newline s -> search r (s ++ [newline]) = search r s.
Proof.
  intros Hnf. induction s as [| c s IH]; intros Hs.
  - pose proof (bt_newline r Hnf [] Hs []
                  (fun _ g => Some g) (fun _ g => Some g)
                  (fun _ _ _ => eq_refl)) as E.
    cbn [app] in *. cbn [search]. rewrite E.
    now destruct (bt r [] [] (fun _ g => Some g)).
  - pose proof (bt_newline r Hnf (c :: s) Hs []
                  (fun _ g => Some g) (fun _ g => Some g)
                  (fun _ _ _ => eq_refl)) as E.
    cbn [app] in *. cbn [search]. rewrite E.
    rewrite IH; [reflexivity |]. intros H. apply Hs. now right.
Qed.

Lemma chars_append (s1 s2 : string) :
  chars (s1 ++ s2)%string = chars s1 ++ chars s2.
Proof.
  unfold chars. induction s1 as [| c s1 IH]; cbn; [reflexivity |].
  now rewrite IH.
Qed.

(** X3: the newline that iterating over a file leaves at the end of each
    line does not change what [parse_line] returns: a line without a
    newline in it parses to the same record, or to none, with and without
    the final newline. *)
Theorem parse_line_final_newline (line : string) :
  ~ In newline (chars line) ->
  parse_line (line ++ String newline EmptyString)%string = parse_line line.
Proof.
  intros Hs. unfold parse_line.
  change (list_ascii_of_string (line ++ String newline "")%string)
    with (chars (line ++ String newline "")%string).
  rewrite chars_append. change (chars (String newline "")) with [newline].
  rewrite search_newline; [reflexivity | reflexivity | exact Hs].
Qed.

Lemma parse_line_final_newline_witness :
  parse_line (line_without_status ++ String newline EmptyString)%string =
  parse_line line_without_status.
Proof.
  apply (@parse_line_final_newline line_without_status).
  vm_compute. intuition discriminate.
Defined.

(* ================================================================== *)
(** ** The counts, key by key *)

Lemma dict_get_incr (k a : string) (d : dict) :
  dict_get a (incr k d) =
  if String.eqb k a
  then Some (match dict_get k d with Some v => v + 1 | None => 0 + 1 end)
  else dict_get a d.
Proof.
  induction d as [| [k' v] d IH]; cbn [incr dict_get].
  - destruct (String.eqb k a); reflexivity.
  - destruct (String.eqb k' k) eqn:Ek; cbn [dict_get].
    + apply String.eqb_eq in Ek. subst k'.
      destruct (String.eqb k a); reflexivity.
    + rewrite IH. destruct (String.eqb k a) eqn:Ea; [| reflexivity].
      apply String.eqb_eq in Ea. subst a. now rewrite Ek.
Qed.

Lemma incr_keys_nodup (k : string) (d : dict) :
  NoDup (map fst d) -> NoDup (map fst (incr k d)).
Proof.
  intros H. destruct (in_dec string_dec k (map fst d)) as [Hin | Hout].
  - now rewrite incr_keys_present.
  - rewrite incr_keys_absent by exact Hout.
    apply NoDup_app; [exact H | constructor; [intros [] | constructor] |].
    intros x Hx [<- | []]. contradiction.
Qed.

Lemma tally_keys_nodup (f : LogEntry -> string) (es : list LogEntry) :
  NoDup (map fst (tally f es)).
Proof.
  induction es as [| e es IH] using rev_ind; [constructor |].
  rewrite tally_snoc. now apply incr_keys_nodup.
Qed.

Lemma count_by_snoc (f : LogEntry -> string) (a : string)
      (es : list LogEntry) (e : LogEntry) :
  count_by f a (es ++ [e]) =
  count_by f a es + (if String.eqb (f e) a then 1 else 0).
Proof.
  unfold count_by. rewrite filter_app, length_app. cbn [filter].
  destruct (String.eqb (f e) a); cbn [List.length]; lia.
Qed.

Lemma count_by_nonneg (f : LogEntry -> string) (a : string)
      (es : list LogEntry) :
  0 <= count_by f a es.
Proof. unfold count_by. lia. Qed.

Lemma tally_get (f : LogEntry -> string) (a : string) (es : list LogEntry) :
  dict_get a (tally f es) = counted (count_by f a es).
Proof.
  induction es as [| e es IH] using rev_ind; [reflexivity |].
  rewrite tally_snoc, dict_get_incr, count_by_snoc.
  pose proof (count_by_nonneg f a es) as Hnn.
  destruct (String.eqb (f e) a) eqn:E.
  - apply String.eqb_eq in E. rewrite E, IH. unfold counted.
    destruct (count_by f a es =? 0) eqn:E0.
    + apply Z.eqb_eq in E0. rewrite E0. reflexivity.
    + apply Z.eqb_neq in E0.
      destruct (count_by f a es + 1 =? 0) eqn:E1;
        [apply Z.eqb_eq in E1; lia | reflexivity].
  - rewrite IH, Z.add_0_r. reflexivity.
Qed.

Lemma dict_get_in (d : dict) (a : string) (c : Z) :
  NoDup (map fst d) -> In (a, c) d -> dict_get a d = Some c.
Proof.
  induction d as [| [k v] d IH]; cbn [map fst dict_get]; intros Hnd Hin;
    [contradiction |].
  inversion Hnd as [| ? ? Hk Hd]; subst.
  destruct Hin as [[= -> ->] | Hin].
  - now rewrite String.eqb_refl.
  - destruct (String.eqb k a) eqn:E; [| now apply IH].
    apply String.eqb_eq in E. subst k. exfalso. apply Hk.
    apply (in_map fst) in Hin. exact Hin.
Qed.

(** X4: after any sequence of records, [ip_counts] holds for each address
    the number of records from it, and no entry for an address that sent
    none; [method_counts] does the same for the methods; no key stands
    twice in either dictionary. *)
Theorem counts_are_exact (entries : list LogEntry) :
  exists st,
    process_all entries init = Ok st /\
    (forall a, dict_get a (ip_counts st) = counted (count_by ip a entries)) /\
    (forall m,
        dict_get m (method_counts st) = counted (count_by method m entries)) /\
    NoDup (map fst (ip_counts st)) /\
    NoDup (map fst (method_counts st)).
Proof.
  destruct (process_all_spec entries) as (st & Hrun & _ & Hm & Hi & _).
  exists st. rewrite Hm, Hi.
  repeat split; auto using tally_get, tally_keys_nodup.
Qed.

(** X5: one call of [process_entry], in any state: the total goes up by
    one, the counts of the record's ip and of its method go up by one (to 1
    when the key was absent), and the count of every other key stays. *)
Theorem process_entry_counts (st : State) (entry : LogEntry) :
  exists st',
    process_entry st entry = Ok st' /\
    total_requests st' = total_requests st + 1 /\
    (forall a,
        dict_get a (ip_counts st') =
        if String.eqb (ip entry) a
        then Some (match dict_get (ip entry) (ip_counts st) with
                   | Some v => v + 1
                   | None => 1
                   end)
        else dict_get a (ip_counts st)) /\
    (forall m,
        dict_get m (method_counts st') =
        if String.eqb (method entry) m
        then Some (match dict_get (method entry) (method_counts st) with
                   | Some v => v + 1
                   | None => 1
                   end)
        else dict_get m (method_counts st)).
Proof.
  destruct (admits_total (slow_requests st) entry) as (b & Hb).
  rewrite (process_entry_eq _ _ Hb). eexists. split; [reflexivity |].
  cbn [total_requests ip_counts method_counts].
  split; [reflexivity |]. split; intros k; apply dict_get_incr.
Qed.

(** X6: the slow list holds the slowest records: what was processed splits
    into the slow list and the rest, and no record of the rest has a longer
    duration than a record of the slow list. *)
Theorem slow_requests_are_slowest (entries : list LogEntry) :
  exists st,
    process_all entries init = Ok st /\
    exists others,
      Permutation (slow_requests st ++ others) entries /\
      forall kept other,
        In kept (slow_requests st) -> In other others ->
        duration other <= duration kept.
Proof.
  destruct (process_all_spec entries) as (st & Hrun & _ & _ & _ & Hs).
  exists st. split; [exact Hrun |].
  exists (skipn 3 (sort_desc duration entries)). rewrite Hs. split.
  - rewrite firstn_skipn. apply sort_desc_perm.
  - intros kept other Hk Ho.
    apply (@StronglySorted_app_cross _ (desc duration)
             (firstn 3 (sort_desc duration entries))
             (skipn 3 (sort_desc duration entries))); auto.
    rewrite firstn_skipn. apply sort_desc_sorted.
Qed.

(* ================================================================== *)
(** ** The order of the input *)

Lemma count_by_perm (f : LogEntry -> string) (a : string)
      (es es' : list LogEntry) :
  Permutation es es' -> count_by f a es = count_by f a es'.
Proof.
  unfold count_by. intros H. f_equal.
  induction H as [| x l l' _ IH | x y l | l l' l'' _ IH1 _ IH2]; cbn [filter].
  - reflexivity.
  - destruct (String.eqb (f x) a); cbn [List.length]; now rewrite IH.
  - destruct (String.eqb (f x) a), (String.eqb (f y) a); reflexivity.
  - congruence.
Qed.

Lemma desc_sorted_unique (l1 : list Z) :
  forall l2,
    StronglySorted (desc (fun z => z)) l1 ->
    StronglySorted (desc (fun z => z)) l2 ->
    Permutation l1 l2 -> l1 = l2.
Proof.
  induction l1 as [| x l1 IH]; intros l2 H1 H2 Hp.
  - apply Permutation_nil in Hp. now subst.
  - destruct l2 as [| y l2];
      [apply Permutation_sym, Permutation_nil in Hp; discriminate |].
    inversion H1 as [| ? ? Hs1 Hf1]; subst.
    inversion H2 as [| ? ? Hs2 Hf2]; subst.
    rewrite Forall_forall in Hf1, Hf2. unfold desc in Hf1, Hf2.
    assert (Hyx : y <= x).
    { assert (Hin : In y (x :: l1))
        by (eapply Permutation_in; [symmetry; exact Hp | now left]).
      destruct Hin as [<- | Hin]; [lia | now apply Hf1]. }
    assert (Hxy : x <= y).
    { assert (Hin : In x (y :: l2))
        by (eapply Permutation_in; [exact Hp | now left]).
      destruct Hin as [<- | Hin]; [lia | now apply Hf2]. }
    assert (x = y) by lia. subst y. f_equal.
    apply IH; auto. eapply Permutation_cons_inv. exact Hp.
Qed.

Lemma sort_desc_keys_perm (A : Type) (key : A -> Z) (l l' : list A) :
  Permutation l l' ->
  map key (sort_desc key l) = map key (sort_desc key l').
Proof.
  intros Hp.
  assert (E : forall l0,
             map key (sort_desc key l0) = sort_desc (fun z => z) (map key l0))
    by (intros l0; apply (sort_desc_map key (fun z => z))).
  rewrite !E.
  apply desc_sorted_unique; try apply sort_desc_sorted.
  rewrite !sort_desc_perm. now apply Permutation_map.
Qed.

Lemma dict_get_some_in (d : dict) (a : string) (c : Z) :
  dict_get a d = Some c -> In (a, c) d.
Proof.
  induction d as [| [k v] d IH]; cbn [dict_get]; [discriminate |].
  destruct (String.eqb k a) eqn:E.
  - apply String.eqb_eq in E. intros [= <-]. subst k. now left.
  - intros H. right. now apply IH.
Qed.

(** The items of a tally: each key that occurs, with how often it does. *)
Lemma tally_in_iff (f : LogEntry -> string) (es : list LogEntry)
      (a : string) (c : Z) :
  In (a, c) (tally f es) <-> 1 <= c /\ c = count_by f a es.
Proof.
  pose proof (count_by_nonneg f a es) as Hnn.
  assert (Hget : dict_get a (tally f es) = Some c <->
                 1 <= c /\ c = count_by f a es).
  { rewrite tally_get. unfold counted.
    destruct (count_by f a es =? 0) eqn:E.
    - apply Z.eqb_eq in E. split; [discriminate | lia].
    - apply Z.eqb_neq in E. split; [intros [= <-]; lia |].
      intros [_ ->]. reflexivity. }
  rewrite <- Hget. split.
  - apply dict_get_in, tally_keys_nodup.
  - apply dict_get_some_in.
Qed.

Lemma tally_perm (f : LogEntry -> string) (es es' : list LogEntry) :
  Permutation es es' -> Permutation (tally f es) (tally f es').
Proof.
  intros Hp. apply NoDup_Permutation.
  - eapply NoDup_map_inv. apply tally_keys_nodup.
  - eapply NoDup_map_inv. apply tally_keys_nodup.
  - intros [a c]. now rewrite !tally_in_iff, (count_by_perm f a Hp).
Qed.

Lemma slice_to_map (A B : Type) (f : A -> B) (n : Z) (l : list A) :
  map f (slice_to n l) = slice_to n (map f l).
Proof.
  unfold slice_to. rewrite length_map.
  destruct (0 <=? n); symmetry; apply firstn_map.
Qed.

(** X7: when two sequences hold the same records in another order (the
    lines of a file, the files of a directory), processing either gives the
    same total, the same count for every ip and every method, the same
    durations in the slow list and, for every n, the same counts in
    [get_top_ips(n)]. *)
Theorem summary_order_insensitive (entries entries' : list LogEntry) :
  Permutation entries entries' ->
  exists st st',
    process_all entries init = Ok st /\
    process_all entries' init = Ok st' /\
    total_requests st = total_requests st' /\
    (forall a, dict_get a (ip_counts st) = dict_get a (ip_counts st')) /\
    (forall m, dict_get m (method_counts st) = dict_get m (method_counts st')) /\
    map duration (slow_requests st) = map duration (slow_requests st') /\
    (forall n,
        map snd (get_top_ips st n) = map snd (get_top_ips st' n)).
Proof.
  intros Hp.
  destruct (process_all_spec entries) as (st & Hrun & Ht & Hm & Hi & Hs).
  destruct (process_all_spec entries') as (st' & Hrun' & Ht' & Hm' & Hi' & Hs').
  exists st, st'. split; [exact Hrun |]. split; [exact Hrun' |].
  split; [rewrite Ht, Ht', (Permutation_length Hp); reflexivity |].
  split; [| split; [| split]].
  - intros a. now rewrite Hi, Hi', !tally_get, (count_by_perm ip a Hp).
  - intros m. now rewrite Hm, Hm', !tally_get, (count_by_perm method m Hp).
  - rewrite Hs, Hs', <- !firstn_map. f_equal. now apply sort_desc_keys_perm.
  - intros n. unfold get_top_ips. rewrite !slice_to_map. f_equal.
    apply sort_desc_keys_perm. rewrite Hi, Hi'. now apply tally_perm.
Qed.

Lemma summary_order_insensitive_witness :
  exists st st',
    process_all [sample_entry; set_duration sample_entry 7] init = Ok st /\
    process_all [set_duration sample_entry 7; sample_entry] init = Ok st' /\
    total_requests st = total_requests st' /\
    (forall a, dict_get a (ip_counts st) = dict_get a (ip_counts st')) /\
    (forall m, dict_get m (method_counts st) = dict_get m (method_counts st')) /\
    map duration (slow_requests st) = map duration (slow_requests st') /\
    (forall n,
        map snd (get_top_ips st n) = map snd (get_top_ips st' n)).
Proof.
  apply (@summary_order_insensitive
           [sample_entry; set_duration sample_entry 7]
           [set_duration sample_entry 7; sample_entry]).
  apply perm_swap.
Defined.

(* ================================================================== *)
(** ** More on [get_top_ips] *)

Lemma NoDup_firstn (A : Type) (n : nat) (l : list A) :
  NoDup l -> NoDup (firstn n l).
Proof.
  intros H. rewrite <- (firstn_skipn n l) in H.
  eapply NoDup_app_remove_r. exact H.
Qed.

(** X8: what [get_top_ips] returns after any sequence of records, for any
    n: no address twice, and with each address the number of records that
    came from it, which is at least 1. *)
Theorem get_top_ips_counts (entries : list LogEntry) (n : Z) :
  exists st,
    process_all entries init = Ok st /\
    NoDup (map fst (get_top_ips st n)) /\
    forall a c,
      In (a, c) (get_top_ips st n) ->
      c = count_by ip a entries /\ 1 <= c.
Proof.
  destruct (process_all_spec entries) as (st & Hrun & _ & _ & Hi & _).
  exists st. split; [exact Hrun |]. unfold get_top_ips.
  destruct (slice_to_firstn n (sort_desc snd (ip_counts st))) as (m & -> & _).
  split.
  - rewrite <- firstn_map. apply NoDup_firstn.
    eapply Permutation_NoDup;
      [apply Permutation_map; symmetry; apply sort_desc_perm |].
    rewrite Hi. apply tally_keys_nodup.
  - intros a c Hin. apply In_firstn in Hin.
    eapply Permutation_in in Hin; [| apply sort_desc_perm].
    rewrite Hi in Hin. apply dict_get_in in Hin; [| apply tally_keys_nodup].
    rewrite tally_get in Hin. unfold counted in Hin.
    pose proof (count_by_nonneg ip a entries).
    destruct (count_by ip a entries =? 0) eqn:E; [discriminate |].
    apply Z.eqb_neq in E. injection Hin as <-. lia.
Qed.

(** X9: how many pairs [get_top_ips(n)] returns, for every integer n: the
    smaller of n and the number of addresses when n >= 0, and all but the
    last -n (none if there are fewer) when n < 0; with n at least the
    number of addresses it returns every address. *)
Theorem get_top_ips_length (st : State) (n : Z) :
  let len := List.length (ip_counts st) in
  List.length (get_top_ips st n) =
    (if 0 <=? n then Nat.min (Z.to_nat n) len else (len - Z.to_nat (- n))%nat) /\
  (Z.of_nat len <= n -> Permutation (get_top_ips st n) (ip_counts st)).
Proof.
  intros len. unfold get_top_ips, slice_to. split.
  - destruct (0 <=? n); rewrite length_firstn, sort_desc_length;
      fold len; lia.
  - intros Hn. destruct (0 <=? n) eqn:E; [| apply Z.leb_gt in E; lia].
    rewrite firstn_all2; [apply sort_desc_perm |].
    rewrite sort_desc_length. fold len. lia.
Qed.

(* ================================================================== *)
(** ** Files and directories *)

Lemma process_all_total (es : list LogEntry) :
  forall st, exists st', process_all es st = Ok st'.
Proof.
  induction es as [| e es IH]; intros st; cbn; [eauto |].
  destruct (process_entry_total st e) as (st1 & ->). cbn. apply IH.
Qed.

Lemma analyze_lines_parsed (lines : list string) :
  forall st, analyze_lines lines st = process_all (parsed lines) st.
Proof.
  induction lines as [| line lines IH]; intros st; [reflexivity |].
  unfold parsed. cbn [analyze_lines flat_map].
  destruct (parse_line line) as [e |]; cbn [app process_all].
  - destruct (process_entry st e); cbn; [apply IH | reflexivity].
  - apply IH.
Qed.

(** X11: over a directory listing, [main]'s loop feeds one parser with the
    lines of the files whose name ends in [.log], file after file in the
    order of the listing; the other names are not opened. *)
Theorem analyze_dir_concat (fs : FileSystem) (d : string)
        (names : list string) (lines_of : string -> list string) :
  (forall name,
      In name names -> is_log name = true ->
      read_lines fs (path_join d name) = Ok (lines_of name)) ->
  forall st,
    analyze_dir fs d names st =
    analyze_lines (flat_map lines_of (filter is_log names)) st.
Proof.
  unfold is_log.
  induction names as [| name names IH]; intros Hread st; [reflexivity |].
  cbn [analyze_dir filter].
  assert (Hrest : forall n, In n names -> endswith n ".log" = true ->
                            read_lines fs (path_join d n) = Ok (lines_of n))
    by (intros n Hn; apply Hread; now right).
  destruct (endswith name ".log") eqn:E.
  - cbn [flat_map]. rewrite analyze_lines_app. unfold analyze_file.
    rewrite (Hread name (or_introl eq_refl) E). cbn [bind].
    destruct (analyze_lines (lines_of name) st); cbn [bind];
      [now apply IH | reflexivity].
  - now apply IH.
Qed.

Lemma analyze_dir_concat_witness :
  analyze_dir two_logs_fs "logs" ["a.log"; "notes.txt"; "b.log"]%string init =
  analyze_lines
    (flat_map lines_of_two_logs
              (filter is_log ["a.log"; "notes.txt"; "b.log"]%string)) init.
Proof.
  apply (@analyze_dir_concat two_logs_fs "logs"
           ["a.log"; "notes.txt"; "b.log"]%string lines_of_two_logs).
  intros name [<- | [<- | [<- | []]]] Hlog;
    first [reflexivity | vm_compute in Hlog; discriminate Hlog].
Defined.

Lemma analyze_lines_total (lines : list string) (st : State) :
  exists st', analyze_lines lines st = Ok st'.
Proof. rewrite analyze_lines_parsed. apply process_all_total. Qed.

Lemma analyze_dir_raises (fs : FileSystem) (d name : string) (e : pyerror)
      (names : list string) :
  In name names -> is_log name = true ->
  read_lines fs (path_join d name) = Raise e ->
  forall st, exists e', analyze_dir fs d names st = Raise e'.
Proof.
  unfold is_log. intros Hin Hlog Hread.
  induction names as [| n names IH]; intros st; [contradiction |].
  cbn [analyze_dir]. destruct Hin as [-> | Hin].
  - rewrite Hlog. unfold analyze_file. rewrite Hread. cbn. eauto.
  - destruct (endswith n ".log"); [| now apply IH].
    unfold analyze_file. destruct (read_lines fs (path_join d n)) as [ls | e0];
      cbn [bind]; [| eauto].
    destruct (analyze_lines_total ls st) as (st1 & ->). cbn [bind].
    now apply IH.
Qed.

Lemma analyze_dir_lines (fs : FileSystem) (d : string) (names : list string) :
  forall st st',
    analyze_dir fs d names st = Ok st' ->
    exists lines,
      dir_lines fs d names = Ok lines /\ analyze_lines lines st = Ok st'.
Proof.
  unfold is_log.
  induction names as [| name names IH]; intros st st' H;
    cbn [analyze_dir dir_lines] in *.
  - injection H as <-. exists []. auto.
  - unfold is_log. destruct (endswith name ".log"); [| now apply IH].
    unfold analyze_file in H.
    destruct (read_lines fs (path_join d name)) as [ls |]; cbn [bind] in *;
      [| discriminate].
    destruct (analyze_lines ls st) as [st1 |] eqn:E1; cbn [bind] in H;
      [| discriminate].
    apply IH in H. destruct H as (more & -> & Hmore). cbn [bind].
    exists (ls ++ more). split; [reflexivity |].
    rewrite analyze_lines_app, E1. exact Hmore.
Qed.

(** X13: when [main] returns [None], the lines it read are those of the
    input file, or of the [.log] files of the input directory in listing
    order; it printed and then wrote one and the same result, to the path
    given with [-o] or else to [<input>.json] (a file) or
    [logs_analysis.json] (a directory); and that result is the state after
    processing, from a fresh parser, the records of the lines read that
    parse: its total is their number and the sum of its method counts, its
    top IPs are [get_top_ips(3)] with at most 3 pairs, and its slow
    requests are the first 3 of their stable descending sort. *)
Theorem main_success_result (fs : FileSystem) (input : string)
        (output : option string) (ev : list event) :
  main fs input output = (ev, Ok None) ->
  exists lines st,
    input_lines fs input = Ok lines /\
    process_all (parsed lines) init = Ok st /\
    let result :=
      {| res_total_requests := total_requests st;
         res_method_counts := method_counts st;
         res_top_ips := get_top_ips st 3;
         res_slow_requests := slow_requests st |} in
    let path :=
      output_or output
        (if isfile fs input then (input ++ ".json")%string
         else "logs_analysis.json"%string) in
    writable fs path = true /\
    ev = [PrintResult result; JsonDump path result] /\
    total_requests st = Z.of_nat (List.length (parsed lines)) /\
    sum_values (method_counts st) = total_requests st /\
    (List.length (get_top_ips st 3) <= 3)%nat /\
    slow_requests st = firstn 3 (sort_desc duration (parsed lines)).
Proof.
  intros H.
  assert (Hread : exists lines st path,
             input_lines fs input = Ok lines /\
             analyze_lines lines init = Ok st /\
             path = output_or output
                      (if isfile fs input then (input ++ ".json")%string
                       else "logs_analysis.json"%string) /\
             (let (ev0, r) := save_results fs st path in
              (ev0, _ <- r ;; Ok (@None Z))) = (ev, Ok None)).
  { unfold main, input_lines in *. destruct (isfile fs input).
    - unfold analyze_file in H.
      destruct (read_lines fs input) as [lines |]; cbn [bind] in H;
        [| discriminate].
      destruct (analyze_lines lines init) as [st |] eqn:E; [| discriminate].
      exists lines, st. eexists. repeat split; eauto.
    - destruct (isdir fs input); [| discriminate].
      destruct (listdir fs input) as [names |]; cbn [bind] in *;
        [| discriminate].
      destruct (analyze_dir fs input names init) as [st |] eqn:E;
        [| discriminate].
      apply analyze_dir_lines in E. destruct E as (lines & Hl & Ha).
      exists lines, st. eexists. repeat split; eauto. }
  destruct Hread as (lines & st & path & Hlines & Hrun & Hpath & Hsave).
  rewrite analyze_lines_parsed in Hrun.
  destruct (process_all_spec (parsed lines)) as (st1 & Hrun1 & Ht & Hm & _ & Hs).
  rewrite Hrun in Hrun1. injection Hrun1 as <-.
  exists lines, st. split; [exact Hlines |]. split; [exact Hrun |].
  cbv zeta. rewrite <- Hpath. unfold save_results in Hsave.
  destruct (writable fs path) eqn:W; cbn [bind] in Hsave; [| discriminate].
  injection Hsave as <-.
  split; [reflexivity |]. split; [reflexivity |]. split; [exact Ht |].
  split; [rewrite Hm, sum_values_tally; now symmetry |].
  split; [| exact Hs].
  unfold get_top_ips, slice_to. cbn [Z.leb Z.compare Z.to_nat].
  apply firstn_le_length.
Qed.

Lemma main_success_result_witness :
  exists lines st,
    input_lines two_logs_fs "logs" = Ok lines /\
    process_all (parsed lines) init = Ok st /\
    let result :=
      {| res_total_requests := total_requests st;
         res_method_counts := method_counts st;
         res_top_ips := get_top_ips st 3;
         res_slow_requests := slow_requests st |} in
    let path :=
      output_or None
        (if isfile two_logs_fs "logs" then ("logs" ++ ".json")%string
         else "logs_analysis.json"%string) in
    writable two_logs_fs path = true /\
    fst (main two_logs_fs "logs" None) =
      [PrintResult result; JsonDump path result] /\
    total_requests st = Z.of_nat (List.length (parsed lines)) /\
    sum_values (method_counts st) = total_requests st /\
    (List.length (get_top_ips st 3) <= 3)%nat /\
    slow_requests st = firstn 3 (sort_desc duration (parsed lines)).
Proof.
  apply (@main_success_result two_logs_fs "logs" None
           (fst (main two_logs_fs "logs" None))).
  vm_compute. reflexivity.
Defined.

(** X14: in directory mode one [.log] file that cannot be opened ends the
    run with an exception: nothing is printed, no result is written - also
    not for the files read before it - and the exit status is 1. *)
Theorem unreadable_log_aborts (fs : FileSystem) (input : string)
        (output : option string) (names : list string) (name : string)
        (e : pyerror) :
  isfile fs input = false ->
  isdir fs input = true ->
  listdir fs input = Ok names ->
  In name names ->
  is_log name = true ->
  read_lines fs (path_join input name) = Raise e ->
  exists e',
    main fs input output = ([], Raise e') /\
    run fs input output = ([], 1).
Proof.
  intros Hf Hd Hl Hin Hlog Hread.
  destruct (analyze_dir_raises fs input name names Hin Hlog Hread init)
    as (e' & He').
  exists e'. unfold run, main. rewrite Hf, Hd, Hl. cbn [bind].
  rewrite He'. split; reflexivity.
Qed.

Lemma unreadable_log_aborts_witness :
  exists e',
    main broken_logs_fs "logs" None = ([], Raise e') /\
    run broken_logs_fs "logs" None = ([], 1).
Proof.
  apply (@unreadable_log_aborts broken_logs_fs "logs" None
           ["a.log"; "notes.txt"; "b.log"]%string "b.log" OSError);
    try reflexivity.
  cbn. tauto.
Defined.


(* ================================================================== *)
(** ** Ties in [get_top_ips] *)

(** C10: [get_top_ips] breaks ties of count by first appearance, also at
    the cut: what it returns is the Python slice [[:n]] of the ranking of
    all addresses seen - each once, with the number of its records -
    ordered by falling count and, among equal counts, by the position of
    the address's first record in the processed sequence.  An address left
    out therefore has a smaller count than every returned one, or an equal
    count and a later first record. *)
Theorem get_top_ips_tie_order (entries : list LogEntry) (n : Z) :
  exists st,
    process_all entries init = Ok st /\
    exists omitted,
      let ranking := get_top_ips st n ++ omitted in
      get_top_ips st n = slice_to n ranking /\
      NoDup (map fst ranking) /\
      (forall a c,
          In (a, c) ranking <-> 1 <= c /\ c = count_by ip a entries) /\
      StronglySorted
        (desc_then snd (fun p o => seen_before entries (fst p) (fst o)))
        ranking.
Proof.
  destruct (process_all_spec entries) as (st & Hrun & _ & _ & Hi & _).
  exists st. split; [exact Hrun |].
  destruct (slice_to_firstn n (sort_desc snd (ip_counts st)))
    as (m & Hm & _).
  exists (skipn m (sort_desc snd (ip_counts st))). cbv zeta.
  assert (E : get_top_ips st n ++ skipn m (sort_desc snd (ip_counts st)) =
              sort_desc snd (ip_counts st))
    by (unfold get_top_ips; rewrite Hm; apply firstn_skipn).
  rewrite E. split; [reflexivity |]. split; [| split].
  - eapply Permutation_NoDup;
      [apply Permutation_map; symmetry; apply sort_desc_perm |].
    rewrite Hi. apply tally_keys_nodup.
  - intros a c. rewrite <- (tally_in_iff ip entries a c), <- Hi.
    split; apply Permutation_in;
      [apply sort_desc_perm | symmetry; apply sort_desc_perm].
  - apply sort_desc_lex. rewrite Hi. apply StronglySorted_map, tally_ip_keys.
Qed.
